(** * Twin Cities map: a shallow embedding of [app/src/App.tsx]

    The development follows the components of the application:
    the pair store (CSV load filter and search filter), the node builder,
    the label placement passes and the interaction controller (zoom, pan,
    drag versus click).

    Numbers.  JavaScript numbers are modelled by rationals [Q]; strict
    equality [===] on numbers is [Qeq_bool].  The zoom transitions take the
    rounding of a product as a parameter, so that their invariant covers
    both exact arithmetic and any monotone rounding.  Values read from the
    CSV file, which may be of any JavaScript type, are modelled by
    [JsValue]. *)

From Stdlib Require Import List String Ascii Bool Arith ZArith QArith Qabs.
From Stdlib Require Import Lia Lqa Permutation.
Import ListNotations.

Local Open Scope Q_scope.

(* ===================================================================== *)
(** * Part I: definitions                                                 *)
(* ===================================================================== *)

(** ** JavaScript values and truthiness *)

(** A JavaScript number: a finite value, NaN or an infinity. *)
Inductive JsNumber : Type :=
| Finite (q : Q)
| NaN
| PosInfinity
| NegInfinity.

(** The values a parsed CSV field can hold: with [dynamicTyping] a field is
    a number, a boolean, a string, [null] for an empty field, and it is
    [undefined] when the row is shorter than the header. *)
Inductive JsValue : Type :=
| JNum (n : JsNumber)
| JStr (s : string)
| JBool (b : bool)
| JNull
| JUndefined.

(** ToBoolean: the falsy values are [0], [NaN], the empty string, [false],
    [null] and [undefined]. *)
Definition truthy (v : JsValue) : bool :=
  match v with
  | JNum (Finite q) => negb (Qeq_bool q 0)
  | JNum NaN => false
  | JNum PosInfinity => true
  | JNum NegInfinity => true
  | JStr s => negb (String.eqb s EmptyString)
  | JBool b => b
  | JNull => false
  | JUndefined => false
  end.

(** [a && b] returns [a] when [a] is falsy and [b] otherwise. *)
Definition js_and (a b : JsValue) : JsValue :=
  if truthy a then b else a.

(** ** Pair store: the CSV load effect *)

(** A row as the CSV parser delivers it. *)
Record RawRow : Type := mkRawRow {
  raw_city1 : JsValue;
  raw_country1 : JsValue;
  raw_lat1 : JsValue;
  raw_lng1 : JsValue;
  raw_city2 : JsValue;
  raw_country2 : JsValue;
  raw_lat2 : JsValue;
  raw_lng2 : JsValue
}.

(** The predicate of the load filter: [p.lat1 && p.lng1 && p.lat2 && p.lng2],
    coerced to a boolean by [Array.prototype.filter]. *)
Definition hasCoords (p : RawRow) : bool :=
  truthy (js_and (js_and (js_and (raw_lat1 p) (raw_lng1 p)) (raw_lat2 p))
                 (raw_lng2 p)).

(** [setPairs(result.data.filter(...))]. *)
Definition setPairs (data : list RawRow) : list RawRow :=
  filter hasCoords data.

(** A coordinate field holds a finite number. *)
Definition isFiniteNumber (v : JsValue) : bool :=
  match v with
  | JNum (Finite _) => true
  | _ => false
  end.

(** A coordinate field is absent (empty or missing column) or is NaN. *)
Definition isMissingOrNaN (v : JsValue) : bool :=
  match v with
  | JNull | JUndefined | JNum NaN => true
  | JStr s => String.eqb s EmptyString
  | _ => false
  end.

(** A coordinate field holds a finite number other than zero. *)
Definition isFiniteNonZero (v : JsValue) : bool :=
  match v with
  | JNum (Finite q) => negb (Qeq_bool q 0)
  | _ => false
  end.

Definition coordFields (p : RawRow) : list JsValue :=
  [raw_lat1 p; raw_lng1 p; raw_lat2 p; raw_lng2 p].

(** ** Pair store: typed pairs and the search filter *)

(** [interface CityPair].  City and country names are [None] when the field
    is [null]; the code guards them with [|| ""]. *)
Record CityPair : Type := mkCityPair {
  city1 : option string;
  country1 : option string;
  lat1 : Q;
  lng1 : Q;
  city2 : option string;
  country2 : option string;
  lat2 : Q;
  lng2 : Q
}.

(** [s || ""] for a string or [null]. *)
Definition orEmpty (s : option string) : string :=
  match s with
  | Some t => t
  | None => EmptyString
  end.

(** [s.includes(t)]: [t] occurs in [s] as a contiguous substring. *)
Fixpoint includes (s t : string) : bool :=
  String.prefix t s
  || match s with
     | EmptyString => false
     | String _ s' => includes s' t
     end.

(** ASCII lower-casing, an instance of [toLowerCase] for examples. *)
Definition asciiLower (c : ascii) : ascii :=
  let n := nat_of_ascii c in
  if (65 <=? n)%nat && (n <=? 90)%nat then ascii_of_nat (n + 32) else c.

Fixpoint asciiToLowerCase (s : string) : string :=
  match s with
  | EmptyString => EmptyString
  | String c s' => String (asciiLower c) (asciiToLowerCase s')
  end.

(** [t] is a substring of [s]. *)
Definition isSubstring (t s : string) : Prop :=
  exists pre post : string, s = (pre ++ t ++ post)%string.

Section PairStore.

(** [String.prototype.toLowerCase], left abstract. *)
Variable toLowerCase : string -> string.

(** The predicate of the search filter. *)
Definition matchesSearch (lower : string) (p : CityPair) : bool :=
  includes (toLowerCase (orEmpty (city1 p))) lower
  || includes (toLowerCase (orEmpty (city2 p))) lower
  || includes (toLowerCase (orEmpty (country1 p))) lower
  || includes (toLowerCase (orEmpty (country2 p))) lower.

(** [filteredPairs]: the empty term is the only falsy string. *)
Definition filteredPairs (pairs : list CityPair) (debouncedSearch : string)
  : list CityPair :=
  if String.eqb debouncedSearch EmptyString then pairs
  else
    let lower := toLowerCase debouncedSearch in
    filter (matchesSearch lower) pairs.

(** The term, lower-cased, occurs in one of the four lower-cased name
    fields of the pair. *)
Definition termOccurs (term : string) (p : CityPair) : Prop :=
  isSubstring (toLowerCase term) (toLowerCase (orEmpty (city1 p)))
  \/ isSubstring (toLowerCase term) (toLowerCase (orEmpty (city2 p)))
  \/ isSubstring (toLowerCase term) (toLowerCase (orEmpty (country1 p)))
  \/ isSubstring (toLowerCase term) (toLowerCase (orEmpty (country2 p))).

(** The claim's reading of a match, independent of how the code guards a
    missing field: a name field holds a string, and the lower-cased term is
    a substring of that string lower-cased.  A field that is [null] holds
    no string and so contains no term. *)
Definition occursIn (term : string) (field : option string) : Prop :=
  exists s : string,
    field = Some s /\ isSubstring (toLowerCase term) (toLowerCase s).

(** The term is a case-insensitive substring of city1, city2, country1 or
    country2 of the pair. *)
Definition caseInsensitiveMatch (term : string) (p : CityPair) : Prop :=
  occursIn term (city1 p) \/ occursIn term (city2 p)
  \/ occursIn term (country1 p) \/ occursIn term (country2 p).

End PairStore.


(** ** Node builder *)

(** [interface CityNode]; [coords] is [[lng, lat]]. *)
Record CityNode : Type := mkCityNode {
  name : option string;
  country : string;
  coords : Q * Q;
  connections : nat
}.

(** The map key [`${lat}|${lng}`].  Since the decimal rendering of a number
    determines the number, two keys are the same string exactly when the
    latitudes and the longitudes are equal numbers; the key is modelled by
    the pair (lat, lng) compared with [key_eqb]. *)
Definition Key : Type := (Q * Q)%type.

Definition key_eqb (a b : Key) : bool :=
  Qeq_bool (fst a) (fst b) && Qeq_bool (snd a) (snd b).

Definition key1 (p : CityPair) : Key := (lat1 p, lng1 p).
Definition key2 (p : CityPair) : Key := (lat2 p, lng2 p).

(** A JavaScript [Map]: entries in insertion order, one per key. *)
Definition JsMap : Type := list (Key * CityNode).

Fixpoint map_has (m : JsMap) (k : Key) : bool :=
  match m with
  | [] => false
  | (k', _) :: m' => key_eqb k' k || map_has m' k
  end.

Fixpoint map_get (m : JsMap) (k : Key) : option CityNode :=
  match m with
  | [] => None
  | (k', v) :: m' => if key_eqb k' k then Some v else map_get m' k
  end.

(** [map.set(k, v)]: overwrite in place, or append a new entry. *)
Fixpoint map_set (m : JsMap) (k : Key) (v : CityNode) : JsMap :=
  match m with
  | [] => [(k, v)]
  | (k', v') :: m' =>
      if key_eqb k' k then (k', v) :: m' else (k', v') :: map_set m' k v
  end.

Definition incrConnections (c : CityNode) : CityNode :=
  {| name := name c; country := country c; coords := coords c;
     connections := S (connections c) |}.

(** [map.get(k)!.connections++]: the node stored under [k] is mutated in
    place.  Nothing happens here when the key is absent (the code would
    throw; the key has always just been inserted). *)
Fixpoint map_incr (m : JsMap) (k : Key) : JsMap :=
  match m with
  | [] => []
  | (k', v) :: m' =>
      if key_eqb k' k then (k', incrConnections v) :: m'
      else (k', v) :: map_incr m' k
  end.

(** [if (!map.has(k)) map.set(k, node)]. *)
Definition ensureNode (m : JsMap) (k : Key) (node : CityNode) : JsMap :=
  if map_has m k then m else map_set m k node.

(** The body of [filteredPairs.forEach] in the [cities] memo. *)
Definition addPair (m : JsMap) (p : CityPair) : JsMap :=
  let m1 :=
    ensureNode m (key1 p)
      {| name := city1 p; country := orEmpty (country1 p);
         coords := (lng1 p, lat1 p); connections := 0 |} in
  let m2 := map_incr m1 (key1 p) in
  let m3 :=
    ensureNode m2 (key2 p)
      {| name := city2 p; country := orEmpty (country2 p);
         coords := (lng2 p, lat2 p); connections := 0 |} in
  map_incr m3 (key2 p).

Definition cityMap (filtered : list CityPair) : JsMap :=
  fold_left addPair filtered [].

(** [Array.from(map.values())]. *)
Definition cities (filtered : list CityPair) : list CityNode :=
  map snd (cityMap filtered).

(** [sum(connectionCount)] over a node list. *)
Definition totalConnections (nodes : list CityNode) : nat :=
  fold_right (fun c acc => (connections c + acc)%nat) 0%nat nodes.

(** The connection count stored for a key, 0 when the key has no node. *)
Definition connectionsAt (m : JsMap) (k : Key) : nat :=
  match map_get m k with
  | Some c => connections c
  | None => 0%nat
  end.

(** The predicate of [findPairsForCity]: an endpoint of the pair has the
    coordinates of the city. *)
Definition touchesCity (city : CityNode) (p : CityPair) : bool :=
  (Qeq_bool (lng1 p) (fst (coords city)) && Qeq_bool (lat1 p) (snd (coords city)))
  || (Qeq_bool (lng2 p) (fst (coords city)) && Qeq_bool (lat2 p) (snd (coords city))).

Definition findPairsForCity (filtered : list CityPair) (city : CityNode)
  : list CityPair :=
  filter (touchesCity city) filtered.

(** A pair both of whose endpoints have the coordinates of the city. *)
Definition selfLoopAt (city : CityNode) (p : CityPair) : bool :=
  (Qeq_bool (lng1 p) (fst (coords city)) && Qeq_bool (lat1 p) (snd (coords city)))
  && (Qeq_bool (lng2 p) (fst (coords city)) && Qeq_bool (lat2 p) (snd (coords city))).

(** A pair whose two endpoints share the coordinate key. *)
Definition isSelfLoop (p : CityPair) : bool := key_eqb (key1 p) (key2 p).

(** Number of elements of a list that satisfy a test. *)
Definition countIf {A : Type} (f : A -> bool) (l : list A) : nat :=
  List.length (filter f l).

(** The key under which the builder stores a node with these coordinates. *)
Definition nodeKey (c : CityNode) : Key := (snd (coords c), fst (coords c)).

(** How many endpoints of the pairs lie at the key: a pair counts once for
    each of its two endpoints that has the key. *)
Definition endpointCount (k : Key) (ps : list CityPair) : nat :=
  (countIf (fun p => key_eqb (key1 p) k) ps
   + countIf (fun p => key_eqb (key2 p) k) ps)%nat.

(** Some endpoint of some pair lies at the key. *)
Definition isEndpoint (k : Key) (ps : list CityPair) : bool :=
  existsb (fun p => key_eqb (key1 p) k || key_eqb (key2 p) k) ps.

(** The shape of the maps the builder produces: every node is stored under
    the key of its own coordinates and no key occurs twice. *)
Fixpoint wfMap (m : JsMap) : Prop :=
  match m with
  | [] => True
  | (k, c) :: m' => nodeKey c = k /\ map_has m' k = false /\ wfMap m'
  end.

(** What a node shows besides its count: name, country and coordinates. *)
Definition nodeInfo (c : CityNode) : option string * string * (Q * Q) :=
  (name c, country c, coords c).

(** The name, country and coordinates that the first mention of a key in a
    pair list gives: the pairs are read in order, and in each pair the
    first end before the second; a missing country reads as the empty
    string. *)
Fixpoint firstMention (k : Key) (ps : list CityPair)
  : option (option string * string * (Q * Q)) :=
  match ps with
  | [] => None
  | p :: rest =>
      if key_eqb (key1 p) k
      then Some (city1 p,
                 match country1 p with Some s => s | None => EmptyString end,
                 (lng1 p, lat1 p))
      else if key_eqb (key2 p) k
      then Some (city2 p,
                 match country2 p with Some s => s | None => EmptyString end,
                 (lng2 p, lat2 p))
      else firstMention k rest
  end.

(** The keys that a pair list mentions, in reading order. *)
Definition mentions (ps : list CityPair) : list Key :=
  flat_map (fun p => [key1 p; key2 p]) ps.

(** A key list without its repetitions: of equal keys the first stays. *)
Fixpoint firstOccurrences (ks : list Key) : list Key :=
  match ks with
  | [] => []
  | k :: rest =>
      k :: filter (fun k' => negb (key_eqb k k')) (firstOccurrences rest)
  end.

(** [sum(connectionCount)] over the values of a map. *)
Definition mapTotal (m : JsMap) : nat := totalConnections (map snd m).

(** ** Label placement engine *)

(** Strict comparisons of numbers. *)
Definition Qltb (a b : Q) : bool := negb (Qle_bool b a).
Definition Qgtb (a b : Q) : bool := Qltb b a.

(** An entry of the [connected] / [labels] array. *)
Record Label : Type := mkLabel {
  label_name : string;
  label_country : string;
  projected : Q * Q;
  labelX : Q;
  labelY : Q
}.

(** The object pushed for a projected node: the label starts at the default
    position, right of and above the dot. *)
Definition pushLabel (nm ctry : string) (proj : Q * Q) : Label :=
  {| label_name := nm; label_country := ctry; projected := proj;
     labelX := fst proj + 7; labelY := snd proj - 8 |}.

(** An entry of [placedRects]; [rect_idx] is recorded by the selection pass
    only. *)
Record PlacedRect : Type := mkPlacedRect {
  rect_x : Q;
  rect_y : Q;
  rect_w : Q;
  rect_h : Q;
  rect_idx : option nat
}.

Definition lh : Q := 15.
Definition pad : Q := 2.

(** [c.name.length * 5.5 + 14]. *)
Definition labelWidth (c : Label) : Q :=
  inject_Z (Z.of_nat (String.length (label_name c))) * (11 # 2) + 14.

(** The eight candidate offsets, in the order of the source. *)
Definition offsets (lw : Q) : list (Q * Q) :=
  [ (7, -(8));
    (7, 6);
    (- lw - 5, -(8));
    (- lw - 5, 6);
    (7, -(8) - lh - pad);
    (7, 6 + lh + pad);
    (- lw - 5, -(8) - lh - pad);
    (- lw - 5, 6 + lh + pad) ].

(** The test inside [placedRects.some]: the candidate at ([cx], [cy]) of
    width [lw] and height [lh] comes within [pad] of the rectangle [r]. *)
Definition collides (cx cy lw : Q) (r : PlacedRect) : bool :=
  Qltb cx (rect_x r + rect_w r + pad)
  && Qgtb (cx + lw + pad) (rect_x r)
  && Qltb cy (rect_y r + rect_h r + pad)
  && Qgtb (cy + lh + pad) (rect_y r).

Definition overlaps (placedRects : list PlacedRect) (cx cy lw : Q) : bool :=
  existsb (collides cx cy lw) placedRects.

(** [for (const [ox, oy] of offsets)] with its [break]: the first candidate
    that is free, if any. *)
Fixpoint tryOffsets (placedRects : list PlacedRect) (proj : Q * Q) (lw : Q)
    (offs : list (Q * Q)) : option (Q * Q) :=
  match offs with
  | [] => None
  | (ox, oy) :: rest =>
      let cx := fst proj + ox in
      let cy := snd proj + oy in
      if overlaps placedRects cx cy lw then tryOffsets placedRects proj lw rest
      else Some (cx, cy)
  end.

(** [for (let dy = 0; dy < 200; dy += lh + pad)]: the downward scan, from
    the current [dy]; [fuel] bounds the number of iterations. *)
Fixpoint scanDown (placedRects : list PlacedRect) (proj : Q * Q) (lw : Q)
    (fuel : nat) (dy : Q) : option (Q * Q) :=
  match fuel with
  | O => None
  | S fuel' =>
      if Qltb dy 200 then
        let cx := fst proj + 7 in
        let cy := snd proj + dy in
        if overlaps placedRects cx cy lw
        then scanDown placedRects proj lw fuel' (dy + (lh + pad))
        else Some (cx, cy)
      else None
  end.

(** The scan leaves its loop after twelve iterations (12 * 17 = 204). *)
Definition scanFuel : nat := 12.

(** A free position found by the candidate loop or, failing that, by the
    downward scan. *)
Definition findSlot (placedRects : list PlacedRect) (c : Label) : option (Q * Q) :=
  let lw := labelWidth c in
  match tryOffsets placedRects (projected c) lw (offsets lw) with
  | Some p => Some p
  | None => scanDown placedRects (projected c) lw scanFuel 0
  end.

(** The body of the placement loop up to the assignment of [bestX], [bestY]:
    when neither loop finds a free position the initial values
    [c.labelX], [c.labelY] remain. *)
Definition placeLabel (placedRects : list PlacedRect) (c : Label) : Q * Q :=
  match findSlot placedRects c with
  | Some p => p
  | None => (labelX c, labelY c)
  end.

(** [c.labelX = bestX; c.labelY = bestY]. *)
Definition setLabelPos (c : Label) (best : Q * Q) : Label :=
  {| label_name := label_name c; label_country := label_country c;
     projected := projected c; labelX := fst best; labelY := snd best |}.

(** The placement loop from index [i] on: it returns the labels with their
    final positions and the final [placedRects].  [tag i] is the [idx] field
    pushed for index [i]. *)
Fixpoint placeLoop (tag : nat -> option nat) (i : nat)
    (placedRects : list PlacedRect) (labels : list Label)
    : list Label * list PlacedRect :=
  match labels with
  | [] => ([], placedRects)
  | c :: rest =>
      let best := placeLabel placedRects c in
      let r := {| rect_x := fst best; rect_y := snd best;
                  rect_w := labelWidth c; rect_h := lh; rect_idx := tag i |} in
      let '(out, final) := placeLoop tag (S i) (placedRects ++ [r]) rest in
      (setLabelPos c best :: out, final)
  end.

(** The pass of [selectedConnectedCities] over [connected]. *)
Definition selectedConnectedCities (connected : list Label)
  : list Label * list PlacedRect :=
  placeLoop (fun i => Some i) 0 [] connected.

(** The pass of [searchLabels] over [labels]. *)
Definition searchLabels (labels : list Label) : list Label * list PlacedRect :=
  placeLoop (fun _ => None) 0 [] labels.

(** Two placed rectangles come within [pad] of each other: the test of the
    source, applied to a placed rectangle. *)
Definition rectsCollide (r1 r2 : PlacedRect) : bool :=
  collides (rect_x r1) (rect_y r1) (rect_w r1) r2.




(** Position and size of a placed rectangle, and of the rectangle drawn
    behind a label ([x], [y], [width], [height] of the [rect] element). *)
Definition rectGeometry (r : PlacedRect) : Q * Q * Q * Q :=
  (rect_x r, rect_y r, rect_w r, rect_h r).


(** The overlap test in the words of the specification: the rectangle at
    ([x], [y]) of width [w] and height [h] and the rectangle [r] come
    within the margin 2 of each other on both axes. *)
Definition paddedOverlap (x y w h : Q) (r : PlacedRect) : Prop :=
  x < rect_x r + rect_w r + 2
  /\ rect_x r < x + w + 2
  /\ y < rect_y r + rect_h r + 2
  /\ rect_y r < y + h + 2.

(** The two placement passes of the component. *)
Inductive Mode : Type := SelectionMode | SearchMode.

Definition placementPass (mode : Mode) (labels : list Label)
  : list Label * list PlacedRect :=
  match mode with
  | SelectionMode => selectedConnectedCities labels
  | SearchMode => searchLabels labels
  end.

Definition modeTag (mode : Mode) : nat -> option nat :=
  match mode with
  | SelectionMode => fun i => Some i
  | SearchMode => fun _ => None
  end.

(** The position of the candidate with the given offset. *)
Definition candidateAt (proj off : Q * Q) : Q * Q :=
  (fst proj + fst off, snd proj + snd off).

(** An offset moved one row ([lh + pad]) further from the dot: up when it
    is above the dot, down when it is below. *)
Definition pushAway (off : Q * Q) : Q * Q :=
  (fst off,
   if Qltb (snd off) 0 then snd off - lh - pad else snd off + lh + pad).

(** ** Interaction controller *)

(** [Math.min] and [Math.max] on numbers. *)
Definition Math_min (a b : Q) : Q := if Qle_bool a b then a else b.
Definition Math_max (a b : Q) : Q := if Qle_bool a b then b else a.

(** The value of [selectedCity] when it is not [null]. *)
Record Selection : Type := mkSelection {
  sel_city : CityNode;
  sel_pairs : list CityPair
}.

(** Two nodes have equal coordinates.  One [cities] array holds one node
    object per coordinate, so inside one array this tells whether two nodes
    are the same object; nodes of two different arrays are different
    objects whatever their coordinates. *)
Definition sameNode (a b : CityNode) : bool :=
  Qeq_bool (fst (coords a)) (fst (coords b))
  && Qeq_bool (snd (coords a)) (snd (coords b)).

(** [a === b] on city node objects.  The [cities] memo makes new node
    objects each time it rebuilds its array, so a node object is named by
    the number of the array it belongs to (counting the rebuilds) and by its
    coordinates. *)
Definition sameObject (arrayA : nat) (a : CityNode) (arrayB : nat) (b : CityNode)
  : bool :=
  Nat.eqb arrayA arrayB && sameNode a b.

(** The state and the refs of the component that the handlers use.
    [citiesArray] is the number of the current [cities] array, and
    [selectedArray] the number of the array the node object held by
    [selectedCity] was taken from; the markers, and with them the node a
    click delivers, always come from the current array. *)
Record AppState : Type := mkAppState {
  zoom : Q;
  pan : Q * Q;
  isPanning : bool;
  isDragging : bool;
  panStart : Q * Q;
  panOrigin : Q * Q;
  selectedCity : option Selection;
  citiesArray : nat;
  selectedArray : nat
}.

(** [useState(1)], [useState([0, 0])], [useRef(false)], ... *)
Definition initialState : AppState :=
  {| zoom := 1; pan := (0, 0); isPanning := false; isDragging := false;
     panStart := (0, 0); panOrigin := (0, 0); selectedCity := None;
     citiesArray := 0; selectedArray := 0 |}.

Definition withZoom (s : AppState) (z : Q) : AppState :=
  {| zoom := z; pan := pan s; isPanning := isPanning s;
     isDragging := isDragging s; panStart := panStart s;
     panOrigin := panOrigin s; selectedCity := selectedCity s;
     citiesArray := citiesArray s; selectedArray := selectedArray s |}.

Definition withPan (s : AppState) (p : Q * Q) : AppState :=
  {| zoom := zoom s; pan := p; isPanning := isPanning s;
     isDragging := isDragging s; panStart := panStart s;
     panOrigin := panOrigin s; selectedCity := selectedCity s;
     citiesArray := citiesArray s; selectedArray := selectedArray s |}.

Definition withIsPanning (s : AppState) (b : bool) : AppState :=
  {| zoom := zoom s; pan := pan s; isPanning := b;
     isDragging := isDragging s; panStart := panStart s;
     panOrigin := panOrigin s; selectedCity := selectedCity s;
     citiesArray := citiesArray s; selectedArray := selectedArray s |}.

Definition withIsDragging (s : AppState) (b : bool) : AppState :=
  {| zoom := zoom s; pan := pan s; isPanning := isPanning s;
     isDragging := b; panStart := panStart s;
     panOrigin := panOrigin s; selectedCity := selectedCity s;
     citiesArray := citiesArray s; selectedArray := selectedArray s |}.

Definition withSelectedCity (s : AppState) (sel : option Selection) : AppState :=
  {| zoom := zoom s; pan := pan s; isPanning := isPanning s;
     isDragging := isDragging s; panStart := panStart s;
     panOrigin := panOrigin s; selectedCity := sel;
     citiesArray := citiesArray s; selectedArray := selectedArray s |}.

(** [setSelectedCity({ city, pairs })] with a node of the current array. *)
Definition selectCity (s : AppState) (sel : Selection) : AppState :=
  {| zoom := zoom s; pan := pan s; isPanning := isPanning s;
     isDragging := isDragging s; panStart := panStart s;
     panOrigin := panOrigin s; selectedCity := Some sel;
     citiesArray := citiesArray s; selectedArray := citiesArray s |}.

(** The [cities] memo has rebuilt its array. *)
Definition citiesRebuilt (s : AppState) : AppState :=
  {| zoom := zoom s; pan := pan s; isPanning := isPanning s;
     isDragging := isDragging s; panStart := panStart s;
     panOrigin := panOrigin s; selectedCity := selectedCity s;
     citiesArray := S (citiesArray s); selectedArray := selectedArray s |}.

(** [selectedCity?.city === city] for a node [city] of the current array. *)
Definition clickedIsSelected (s : AppState) (city : CityNode) : bool :=
  match selectedCity s with
  | Some sel => sameObject (selectedArray s) (sel_city sel) (citiesArray s) city
  | None => false
  end.

(** The input events and the deferred callback of [handleMouseUp]. *)
Inductive Event : Type :=
| Wheel (deltaY : Q)
| MouseDown (button : Z) (clientX clientY : Q)
| MouseMove (clientX clientY : Q) (container : option (Q * Q))
| MouseUp
| MouseLeave
| DragResetTimeout
| ZoomInClick
| ZoomOutClick
| ResetViewClick
| CityClick (city : CityNode)
| MapClick.

Section Controller.

(** The rounding applied to the result of a multiplication and to a
    decimal literal; the identity gives exact arithmetic. *)
Variable round : Q -> Q.

(** The current [filteredPairs], read by [findPairsForCity]. *)
Variable filtered : list CityPair.

Definition handleWheel (deltaY : Q) (s : AppState) : AppState :=
  let delta := if Qgtb deltaY 0 then round (85 # 100) else round (118 # 100) in
  withZoom s (Math_min (Math_max (round (zoom s * delta)) (1 # 2)) 20).

Definition handleMouseDown (button : Z) (clientX clientY : Q) (s : AppState)
  : AppState :=
  if (button =? 0)%Z || (button =? 1)%Z then
    {| zoom := zoom s; pan := pan s; isPanning := true;
       isDragging := false; panStart := (clientX, clientY);
       panOrigin := pan s; selectedCity := selectedCity s;
       citiesArray := citiesArray s; selectedArray := selectedArray s |}
  else s.

(** [container] is the size (width, height) of the bounding rectangle of
    the map container, [None] when the ref is [null]. *)
Definition handleMouseMove (clientX clientY : Q) (container : option (Q * Q))
    (s : AppState) : AppState :=
  if negb (isPanning s) then s
  else
    let dx := clientX - fst (panStart s) in
    let dy := clientY - snd (panStart s) in
    if negb (isDragging s) && Qltb (Qabs dx + Qabs dy) 3 then s
    else
      let s' := withIsDragging s true in
      match container with
      | None => s'
      | Some (width, height) =>
          let scaleX := 960 / width in
          let scaleY := 500 / height in
          withPan s' (fst (panOrigin s) + dx * scaleX,
                      snd (panOrigin s) + dy * scaleY)
      end.

(** [handleMouseUp] without its deferred part. *)
Definition handleMouseUp (s : AppState) : AppState :=
  withIsPanning s false.

(** The callback that [handleMouseUp] hands to [setTimeout(..., 0)]. *)
Definition dragResetTimeout (s : AppState) : AppState :=
  withIsDragging s false.

Definition resetView (s : AppState) : AppState :=
  withPan (withZoom s 1) (0, 0).

Definition zoomIn (s : AppState) : AppState :=
  withZoom s (Math_min (round (zoom s * round (14 # 10))) 20).

Definition zoomOut (s : AppState) : AppState :=
  withZoom s (Math_max (round (zoom s * round (7 # 10))) (1 # 2)).

Definition handleCityClick (city : CityNode) (s : AppState) : AppState :=
  if isDragging s then s
  else if clickedIsSelected s city then withSelectedCity s None
  else
    selectCity s
      {| sel_city := city; sel_pairs := findPairsForCity filtered city |}.

Definition handleMapClick (s : AppState) : AppState :=
  if isDragging s then s
  else
    match selectedCity s with
    | Some _ => withSelectedCity s None
    | None => s
    end.

(** One event, dispatched to its handler. *)
Definition step (s : AppState) (e : Event) : AppState :=
  match e with
  | Wheel deltaY => handleWheel deltaY s
  | MouseDown button x y => handleMouseDown button x y s
  | MouseMove x y container => handleMouseMove x y container s
  | MouseUp => handleMouseUp s
  | MouseLeave => handleMouseUp s
  | DragResetTimeout => dragResetTimeout s
  | ZoomInClick => zoomIn s
  | ZoomOutClick => zoomOut s
  | ResetViewClick => resetView s
  | CityClick city => handleCityClick city s
  | MapClick => handleMapClick s
  end.

Definition run (s : AppState) (events : list Event) : AppState :=
  fold_left step events s.

(** What toggling the selection on the marker of [city] gives in state
    [s]: no selection when the selection holds the very node object of the
    marker (an object of the current array, at the coordinates of [city]),
    and otherwise [city] with the filtered pairs that touch it. *)
Definition toggled (city : CityNode) (s : AppState) : option Selection :=
  match selectedCity s with
  | Some cur =>
      if Nat.eqb (selectedArray s) (citiesArray s)
         && (Qeq_bool (fst (coords (sel_city cur))) (fst (coords city))
             && Qeq_bool (snd (coords (sel_city cur))) (snd (coords city)))
      then None
      else Some {| sel_city := city;
                   sel_pairs := findPairsForCity filtered city |}
  | None => Some {| sel_city := city;
                    sel_pairs := findPairsForCity filtered city |}
  end.

End Controller.

(** The displacement of the pointer from [start], in screen pixels, as the
    handler measures it: the sum of the absolute differences. *)
Definition pixelDisplacement (start : Q * Q) (x y : Q) : Q :=
  Qabs (x - fst start) + Qabs (y - snd start).

(** The same displacement scaled to the units of the 960 by 500 canvas, for
    a container of the given rendered size. *)
Definition scaledDisplacement (start : Q * Q) (x y : Q) (size : Q * Q) : Q :=
  Qabs ((x - fst start) * (960 / fst size))
  + Qabs ((y - snd start) * (500 / snd size)).

(** The events of the pointer on the map container. *)
Definition isPointerEvent (e : Event) : Prop :=
  match e with
  | MouseDown _ _ _ | MouseMove _ _ _ | MouseUp | MouseLeave => True
  | _ => False
  end.

(** A pointer move as the gesture theorems see it. *)
Definition moveEvent (m : Q * Q * option (Q * Q)) : Event :=
  MouseMove (fst (fst m)) (snd (fst m)) (snd m).

(** The move reaches the drag threshold of the handler: it is at least three
    screen pixels away from the start of the gesture. *)
Definition reachesThreshold (start : Q * Q) (m : Q * Q * option (Q * Q)) : bool :=
  negb (Qltb (pixelDisplacement start (fst (fst m)) (snd (fst m))) 3).

(** A press on a marker, some pointer moves, the release and the click that
    the browser delivers before the deferred reset runs. *)
Definition clickGesture (button : Z) (x0 y0 : Q)
    (moves : list (Q * Q * option (Q * Q))) (city : CityNode) : list Event :=
  MouseDown button x0 y0 :: map moveEvent moves ++ [MouseUp; CityClick city].

(** The zoom interval of the view transform. *)
Definition zoomInRange (z : Q) : Prop := 1 # 2 <= z /\ z <= 20.

(** ** Concrete inputs used by the examples *)

(** A row on the equator: all four coordinates are finite numbers. *)
Definition equatorRow : RawRow :=
  {| raw_city1 := JStr "Quito"; raw_country1 := JStr "Ecuador";
     raw_lat1 := JNum (Finite 0); raw_lng1 := JNum (Finite (-(785 # 10)));
     raw_city2 := JStr "Madrid"; raw_country2 := JStr "Spain";
     raw_lat2 := JNum (Finite (404 # 10)); raw_lng2 := JNum (Finite (-(37 # 10))) |}.

(** A row whose first latitude overflowed to [Infinity] when parsed. *)
Definition overflowRow : RawRow :=
  {| raw_city1 := JStr "A"; raw_country1 := JStr "X";
     raw_lat1 := JNum PosInfinity; raw_lng1 := JNum (Finite 10);
     raw_city2 := JStr "B"; raw_country2 := JStr "Y";
     raw_lat2 := JNum (Finite 20); raw_lng2 := JNum (Finite 20) |}.

(** A well-formed row and a row with an empty coordinate field. *)
Definition goodRow : RawRow :=
  {| raw_city1 := JStr "A"; raw_country1 := JStr "X";
     raw_lat1 := JNum (Finite 10); raw_lng1 := JNum (Finite 10);
     raw_city2 := JStr "B"; raw_country2 := JStr "Y";
     raw_lat2 := JNum (Finite 20); raw_lng2 := JNum (Finite 20) |}.

Definition emptyFieldRow : RawRow :=
  {| raw_city1 := JStr "A"; raw_country1 := JStr "X";
     raw_lat1 := JNum (Finite 10); raw_lng1 := JNull;
     raw_city2 := JStr "C"; raw_country2 := JStr "Z";
     raw_lat2 := JNum (Finite 30); raw_lng2 := JNum (Finite 30) |}.

(** The two pairs of the scenario of the specification. *)
Definition pairAB : CityPair :=
  {| city1 := Some "A"%string; country1 := Some "X"%string; lat1 := 10; lng1 := 10;
     city2 := Some "B"%string; country2 := Some "Y"%string; lat2 := 20; lng2 := 20 |}.

Definition pairAC : CityPair :=
  {| city1 := Some "A"%string; country1 := Some "X"%string; lat1 := 10; lng1 := 10;
     city2 := Some "C"%string; country2 := Some "Z"%string; lat2 := 30; lng2 := 30 |}.

(** A pair from a city to itself. *)
Definition pairAA : CityPair :=
  {| city1 := Some "A"%string; country1 := Some "X"%string; lat1 := 10; lng1 := 10;
     city2 := Some "A"%string; country2 := Some "X"%string; lat2 := 10; lng2 := 10 |}.

(** The node that the builder makes for city A from the pairs A-B, A-A and
    A-C. *)
Definition nodeA : CityNode :=
  {| name := Some "A"%string; country := "X"; coords := (10, 10);
     connections := 4 |}.

Definition examplePairs : list CityPair := [pairAB; pairAA; pairAC].

(** The node that the builder makes for city A when the search term "b"
    leaves the pair A-B alone. *)
Definition nodeA_searchB : CityNode :=
  {| name := Some "A"%string; country := "X"; coords := (10, 10);
     connections := 1 |}.



(** Three labels around one dot. *)
Definition threeLabels : list Label :=
  [pushLabel "A" "X" (100, 100); pushLabel "B" "Y" (100, 100);
   pushLabel "C" "Z" (100, 100)].

(** Exact arithmetic: nothing is rounded. *)
Definition exact (q : Q) : Q := q.

(** Two pairs that name the city at one coordinate differently. *)
Definition pairHagueWarsaw : CityPair :=
  {| city1 := Some "The Hague"%string; country1 := Some "Netherlands"%string;
     lat1 := 5208 # 100; lng1 := 43 # 10;
     city2 := Some "Warsaw"%string; country2 := Some "Poland"%string;
     lat2 := 5223 # 100; lng2 := 2101 # 100 |}.

Definition pairDenHaagJuigalpa : CityPair :=
  {| city1 := Some "Den Haag"%string; country1 := Some "Nederland"%string;
     lat1 := 5208 # 100; lng1 := 43 # 10;
     city2 := Some "Juigalpa"%string; country2 := Some "Nicaragua"%string;
     lat2 := 121 # 10; lng2 := -(8537 # 100) |}.

(** ** The statistic of the modal: [totalCities] *)

(** A JavaScript [Set] of key strings: its elements in insertion order. *)
Definition JsSet : Type := list Key.

Fixpoint set_has (s : JsSet) (k : Key) : bool :=
  match s with
  | [] => false
  | k' :: s' => key_eqb k' k || set_has s' k
  end.

(** [set.add(k)]. *)
Definition set_add (s : JsSet) (k : Key) : JsSet :=
  if set_has s k then s else s ++ [k].

(** The [totalCities] memo: [set.size] after both keys of every pair have
    been added. *)
Definition totalCities (pairs : list CityPair) : nat :=
  List.length
    (fold_left (fun set p => set_add (set_add set (key1 p)) (key2 p)) pairs []).

(** ** The falsy values, one by one *)

Definition isFalsy (v : JsValue) : Prop :=
  v = JNull \/ v = JUndefined \/ v = JNum NaN \/ v = JBool false
  \/ v = JStr EmptyString \/ exists q, v = JNum (Finite q) /\ q == 0.

(** ** The twin of a pair, seen from a city *)

(** [p.lng1 === city.coords[0] && p.lat1 === city.coords[1]]. *)
Definition isCity1 (city : CityNode) (p : CityPair) : bool :=
  Qeq_bool (lng1 p) (fst (coords city)) && Qeq_bool (lat1 p) (snd (coords city)).

Definition twinCoords (city : CityNode) (p : CityPair) : Q * Q :=
  if isCity1 city p then (lng2 p, lat2 p) else (lng1 p, lat1 p).

Definition twinName (city : CityNode) (p : CityPair) : option string :=
  if isCity1 city p then city2 p else city1 p.

Definition twinCountry (city : CityNode) (p : CityPair) : string :=
  if isCity1 city p then orEmpty (country2 p) else orEmpty (country1 p).

(** Two coordinate pairs hold equal numbers. *)
Definition sameCoords (a b : Q * Q) : Prop :=
  fst a == fst b /\ snd a == snd b.

(** ** Path aggregation and the label memos *)

Section Projected.

(** The projection of [d3-geo], from [[lng, lat]] to the plane or [null],
    and the rendering of a number inside a template literal. *)
Variable projection : Q * Q -> option (Q * Q).
Variable showNumber : Q -> string.

(** [`M${from[0]},${from[1]}L${to[0]},${to[1]}`]. *)
Definition segment (from to : Q * Q) : string :=
  ("M" ++ showNumber (fst from) ++ "," ++ showNumber (snd from)
   ++ "L" ++ showNumber (fst to) ++ "," ++ showNumber (snd to))%string.

(** The body of the [forEach] that fills [segments]. *)
Definition pushSegment (segments : list string) (p : CityPair) : list string :=
  match projection (lng1 p, lat1 p), projection (lng2 p, lat2 p) with
  | Some from, Some to => segments ++ [segment from to]
  | _, _ => segments
  end.

Definition pathSegments (ps : list CityPair) : list string :=
  fold_left pushSegment ps [].

(** [segments.join("")]. *)
Definition joinSegments (segments : list string) : string :=
  fold_right String.append EmptyString segments.

Definition linesPath (filtered : list CityPair) : string :=
  joinSegments (pathSegments filtered).

Definition selectedPath (selected : option Selection) : string :=
  match selected with
  | None => EmptyString
  | Some sel => joinSegments (pathSegments (sel_pairs sel))
  end.

(** Both endpoints of the pair have a projection. *)
Definition projects (p : CityPair) : bool :=
  match projection (lng1 p, lat1 p), projection (lng2 p, lat2 p) with
  | Some _, Some _ => true
  | _, _ => false
  end.

(** ** The label memos, from the selection or the node list *)

(** The entry pushed for a projected node.  The pass reads
    [c.name.length], which throws when the name is [null]; such an entry is
    [None]. *)
Definition pushEntry (nm : option string) (ctry : string) (proj : Q * Q)
  : option Label :=
  match nm with
  | Some s => Some (pushLabel s ctry proj)
  | None => None
  end.

(** The entries as labels, when every name is a string. *)
Fixpoint allLabels (entries : list (option Label)) : option (list Label) :=
  match entries with
  | [] => Some []
  | None :: _ => None
  | Some c :: rest =>
      match allLabels rest with
      | Some cs => Some (c :: cs)
      | None => None
      end
  end.

(** The entry for one node, nothing when the node has no projection. *)
Definition entryFor (nm : option string) (ctry : string) (at_ : Q * Q)
  : list (option Label) :=
  match projection at_ with
  | Some proj => [pushEntry nm ctry proj]
  | None => []
  end.

(** The array [connected] before the placement loop. *)
Definition connectedEntries (sel : Selection) : list (option Label) :=
  entryFor (name (sel_city sel)) (country (sel_city sel)) (coords (sel_city sel))
  ++ flat_map
       (fun p => entryFor (twinName (sel_city sel) p) (twinCountry (sel_city sel) p)
                   (twinCoords (sel_city sel) p))
       (sel_pairs sel).

(** The [selectedConnectedCities] memo; [None] when it throws. *)
Definition selectedConnectedCitiesMemo (selected : option Selection)
  : option (list Label) :=
  match selected with
  | None => Some []
  | Some sel =>
      match allLabels (connectedEntries sel) with
      | Some connected => Some (fst (selectedConnectedCities connected))
      | None => None
      end
  end.

(** The array [labels] of the search memo before the placement loop. *)
Definition searchEntries (nodes : list CityNode) : list (option Label) :=
  flat_map (fun city => entryFor (name city) (country city) (coords city)) nodes.

(** The [searchLabels] memo; [None] when it throws. *)
Definition searchLabelsMemo (isFiltered : bool) (nodes : list CityNode)
    (hasSelection : bool) : option (list Label) :=
  if negb isFiltered || hasSelection then Some []
  else
    match allLabels (searchEntries nodes) with
    | Some labels => Some (fst (searchLabels labels))
    | None => None
    end.

End Projected.

(** ** The positions of the downward scan *)

(** The value of [dy] in iteration [i] of the scan. *)
Fixpoint scanDy (i : nat) : Q :=
  match i with
  | O => 0
  | S j => scanDy j + (lh + pad)
  end.

Definition scanSlot (proj : Q * Q) (i : nat) : Q * Q :=
  (fst proj + 7, snd proj + scanDy i).

(** The first position of a list that is free. *)
Fixpoint firstFree (placedRects : list PlacedRect) (lw : Q)
    (positions : list (Q * Q)) : option (Q * Q) :=
  match positions with
  | [] => None
  | pos :: rest =>
      if overlaps placedRects (fst pos) (snd pos) lw
      then firstFree placedRects lw rest
      else Some pos
  end.

(** The twenty positions a label can be given besides its default: the
    eight candidates, then the twelve positions of the scan. *)
Definition slotPositions (c : Label) : list (Q * Q) :=
  map (candidateAt (projected c)) (offsets (labelWidth c))
  ++ map (scanSlot (projected c)) (seq 0 scanFuel).

(** A label as [pushLabel] makes it: at its default position. *)
Definition atDefault (c : Label) : Prop :=
  labelX c = fst (projected c) + 7 /\ labelY c = snd (projected c) - 8.

(** ** Renderer *)

(** The condition under which the leader line from the dot to the label is
    drawn. *)
Definition hasLeaderLine (c : Label) : bool :=
  Qgtb (Qabs (labelX c - (fst (projected c) + 7))) 1
  || Qgtb (Qabs (labelY c - (snd (projected c) - 8))) 1.

(** The nodes handed to the marker loop (a node without a projection
    renders nothing there). *)
Definition visibleMarkers (isFiltered : bool) (nodes : list CityNode)
  : list CityNode :=
  if isFiltered then nodes
  else filter (fun c => (3 <=? connections c)%nat) nodes.

(** The attribute [r] of a marker (exact arithmetic). *)
Definition markerRadius (isSelected isHovered hasSelection isConnected : bool)
    (conns : nat) : Q :=
  if isSelected then 5
  else if isHovered then 4
  else if hasSelection && negb isConnected
       then Math_min (1 + inject_Z (Z.of_nat conns) * (5 # 100)) (15 # 10)
       else Math_min (1 + inject_Z (Z.of_nat conns) * (15 # 100)) 3.

(** The rows of the tooltip: [pairs.slice(0, 8)] with the name and country
    of each twin, and the count of the line "+N more". *)
Definition tooltipRows (city : CityNode) (pairs : list CityPair)
  : list (option string * string) :=
  map (fun p => (twinName city p, twinCountry city p)) (firstn 8 pairs).

Definition tooltipMore (pairs : list CityPair) : option nat :=
  if (8 <? List.length pairs)%nat then Some (List.length pairs - 8)%nat else None.

(** ** The whole interaction state: search box, debounce timer, hover *)

(** The value of [hoveredCity] when it is not [null]. *)
Record HoveredCity : Type := mkHoveredCity {
  hov_city : CityNode;
  hov_pairs : list CityPair;
  hov_x : Q;
  hov_y : Q
}.

(** [pendingTimer] is the term captured by the timer of the debounce effect
    that has not fired and has not been cleared. *)
Record UiState : Type := mkUiState {
  ctrl : AppState;
  searchTerm : string;
  debouncedSearch : string;
  pendingTimer : option string;
  hoveredCity : option HoveredCity
}.

(** After the first render: the debounce effect has started its timer. *)
Definition initialUi : UiState :=
  {| ctrl := initialState; searchTerm := EmptyString;
     debouncedSearch := EmptyString; pendingTimer := Some EmptyString;
     hoveredCity := None |}.

Inductive UiEvent : Type :=
| Controller (e : Event)
| SearchChange (value : string)
| ClearSearchClick
| ClearSelectionClick
| DebounceTimeout
| MarkerEnter (city : CityNode) (clientX clientY : Q)
| MarkerLeave.

Section Ui.

Variable toLowerCase : string -> string.
Variable round : Q -> Q.

(** The loaded [pairs]. *)
Variable pairs : list CityPair.

(** [filteredPairs] in the current state. *)
Definition currentFiltered (u : UiState) : list CityPair :=
  filteredPairs toLowerCase pairs (debouncedSearch u).

(** [setSearchTerm(value); setSelectedCity(null)], then the debounce effect:
    when the term has changed, the old timer is cleared and a new one
    started. *)
Definition searchChange (value : string) (u : UiState) : UiState :=
  {| ctrl := withSelectedCity (ctrl u) None;
     searchTerm := value;
     debouncedSearch := debouncedSearch u;
     pendingTimer :=
       if String.eqb value (searchTerm u) then pendingTimer u else Some value;
     hoveredCity := hoveredCity u |}.

(** The callback of the debounce timer: [setDebouncedSearch(searchTerm)]
    with the term it captured.  When the committed term changes,
    [filteredPairs] is a new array and the [cities] memo rebuilds its
    nodes. *)
Definition debounceTimeout (u : UiState) : UiState :=
  match pendingTimer u with
  | Some term =>
      {| ctrl := if String.eqb term (debouncedSearch u) then ctrl u
                 else citiesRebuilt (ctrl u);
         searchTerm := searchTerm u; debouncedSearch := term;
         pendingTimer := None; hoveredCity := hoveredCity u |}
  | None => u
  end.

Definition uiStep (u : UiState) (e : UiEvent) : UiState :=
  match e with
  | Controller e' =>
      {| ctrl := step round (currentFiltered u) (ctrl u) e';
         searchTerm := searchTerm u; debouncedSearch := debouncedSearch u;
         pendingTimer := pendingTimer u; hoveredCity := hoveredCity u |}
  | SearchChange value => searchChange value u
  | ClearSearchClick => searchChange EmptyString u
  | ClearSelectionClick =>
      {| ctrl := withSelectedCity (ctrl u) None;
         searchTerm := searchTerm u; debouncedSearch := debouncedSearch u;
         pendingTimer := pendingTimer u; hoveredCity := hoveredCity u |}
  | DebounceTimeout => debounceTimeout u
  | MarkerEnter city x y =>
      {| ctrl := ctrl u; searchTerm := searchTerm u;
         debouncedSearch := debouncedSearch u; pendingTimer := pendingTimer u;
         hoveredCity :=
           Some {| hov_city := city;
                   hov_pairs := findPairsForCity (currentFiltered u) city;
                   hov_x := x; hov_y := y |} |}
  | MarkerLeave =>
      {| ctrl := ctrl u; searchTerm := searchTerm u;
         debouncedSearch := debouncedSearch u; pendingTimer := pendingTimer u;
         hoveredCity := None |}
  end.

Definition uiRun (u : UiState) (events : list UiEvent) : UiState :=
  fold_left uiStep events u.

(** [isFiltered] and [hasSelection]. *)
Definition isFiltered (u : UiState) : bool :=
  negb (String.eqb (debouncedSearch u) EmptyString).

Definition hasSelection (u : UiState) : bool :=
  match selectedCity (ctrl u) with
  | Some _ => true
  | None => false
  end.

(** While a timer is pending it holds the term in the search box; when none
    is pending the committed term is the term in the search box. *)
Definition timerConsistent (u : UiState) : Prop :=
  match pendingTimer u with
  | Some term => term = searchTerm u
  | None => debouncedSearch u = searchTerm u
  end.

(** The pairs of a selection or of a hover were found for its city under
    some search term. *)
Definition foundUnderSomeTerm (city : CityNode) (found : list CityPair) : Prop :=
  exists term : string,
    found = findPairsForCity (filteredPairs toLowerCase pairs term) city.

Definition provenance (u : UiState) : Prop :=
  (forall sel, selectedCity (ctrl u) = Some sel ->
               foundUnderSomeTerm (sel_city sel) (sel_pairs sel))
  /\ (forall hov, hoveredCity u = Some hov ->
                  foundUnderSomeTerm (hov_city hov) (hov_pairs hov)).

End Ui.

(** ** Further inputs for the examples *)

(** A projection for the examples: longitude and latitude in degrees as
    plane coordinates, north up. *)
Definition plateCarree (lnglat : Q * Q) : option (Q * Q) :=
  Some (fst lnglat, - snd lnglat).

(** City A selected among the pairs A-B and A-C. *)
Definition selectionA : Selection :=
  {| sel_city := nodeA; sel_pairs := findPairsForCity [pairAB; pairAC] nodeA |}.

(** A press, pointer moves, the release and the click that reaches the map
    background. *)
Definition mapClickGesture (button : Z) (x0 y0 : Q)
    (moves : list (Q * Q * option (Q * Q))) : list Event :=
  MouseDown button x0 y0 :: map moveEvent moves ++ [MouseUp; MapClick].

(** A number rendering for the examples: the decimal digits of an integer
    (the fraction of other numbers is dropped). *)
Fixpoint showDigits (fuel n : nat) (acc : string) : string :=
  match fuel with
  | O => acc
  | S fuel' =>
      let acc' := String (ascii_of_nat (48 + n mod 10)) acc in
      if (n <? 10)%nat then acc' else showDigits fuel' (n / 10) acc'
  end.

Definition showInteger (q : Q) : string :=
  let z := (Qnum q / Zpos (Qden q))%Z in
  if (z <? 0)%Z
  then String "-" (showDigits 20 (Z.to_nat (- z)) EmptyString)
  else showDigits 20 (Z.to_nat z) EmptyString.

(** A projection that, like the Mercator projection, has no image for the
    poles. *)
Definition clippedProjection (lnglat : Q * Q) : option (Q * Q) :=
  if Qle_bool (Qabs (snd lnglat)) 85 then Some (fst lnglat, - snd lnglat)
  else None.

(** A pair with one end at the north pole. *)
Definition pairPole : CityPair :=
  {| city1 := Some "North Pole"%string; country1 := None; lat1 := 90; lng1 := 0;
     city2 := Some "B"%string; country2 := Some "Y"%string; lat2 := 20; lng2 := 20 |}.

(** A node without a name, as an empty [city1] field gives it. *)
Definition namelessNode : CityNode :=
  {| name := None; country := "X"; coords := (10, 10); connections := 1 |}.

(* ===================================================================== *)
(** * Part II: properties                                                 *)
(* ===================================================================== *)

(** ** Pair store: the load filter *)

Lemma js_and_truthy (a b : JsValue) :
  truthy (js_and a b) = truthy a && truthy b.
Proof.
  unfold js_and. destruct (truthy a) eqn:Ha; simpl; [reflexivity | exact Ha].
Qed.

Lemma hasCoords_all_truthy (p : RawRow) :
  hasCoords p = forallb truthy (coordFields p).
Proof.
  unfold hasCoords, coordFields. rewrite !js_and_truthy. simpl.
  rewrite andb_true_r, !andb_assoc. reflexivity.
Qed.

Lemma missing_not_truthy (v : JsValue) :
  isMissingOrNaN v = true -> truthy v = false.
Proof.
  destruct v as [[q | | |] | s | b | |]; simpl; try discriminate; try reflexivity.
  intros ->. reflexivity.
Qed.

Lemma finite_nonzero_truthy (v : JsValue) :
  isFiniteNonZero v = true -> truthy v = true.
Proof.
  destruct v as [[q | | |] | s | b | |]; simpl; try discriminate. trivial.
Qed.

Lemma setPairs_In (data : list RawRow) (p : RawRow) :
  In p (setPairs data) <-> In p data /\ hasCoords p = true.
Proof. unfold setPairs. apply filter_In. Qed.

(** C3, as stated, fails in both directions: a row whose four coordinates
    are finite numbers is discarded when one of them is zero, and a row
    with a non-finite coordinate is kept when that coordinate is an
    infinity. *)
Lemma load_filter_not_finiteness_test :
  (forallb isFiniteNumber (coordFields equatorRow) = true
   /\ ~ In equatorRow (setPairs [equatorRow]))
  /\ (existsb (fun v => negb (isFiniteNumber v)) (coordFields overflowRow) = true
      /\ In overflowRow (setPairs [overflowRow])).
Proof.
  split; split.
  - reflexivity.
  - intros H. apply setPairs_In in H. destruct H as [_ H].
    vm_compute in H. discriminate.
  - reflexivity.
  - apply setPairs_In. split; [left; reflexivity | reflexivity].
Qed.

(** C3 (amended): a loaded row with a coordinate field that is empty,
    missing or NaN is discarded, and a loaded row whose four coordinates are
    finite numbers other than zero is kept. *)
Theorem load_filter_drops_missing_keeps_nonzero :
  forall (data : list RawRow) (p : RawRow),
    In p data ->
    ((exists v, In v (coordFields p) /\ isMissingOrNaN v = true) ->
     ~ In p (setPairs data))
    /\ ((forall v, In v (coordFields p) -> isFiniteNonZero v = true) ->
        In p (setPairs data)).
Proof.
  intros data p Hin. split.
  - intros [v [Hv Hmiss]] Hkept.
    apply setPairs_In in Hkept. destruct Hkept as [_ Hkeep].
    rewrite hasCoords_all_truthy in Hkeep.
    rewrite forallb_forall in Hkeep.
    specialize (Hkeep v Hv). rewrite (missing_not_truthy v Hmiss) in Hkeep.
    discriminate.
  - intros Hall. apply setPairs_In. split; [exact Hin |].
    rewrite hasCoords_all_truthy. apply forallb_forall.
    intros v Hv. apply finite_nonzero_truthy, Hall, Hv.
Qed.

Lemma load_filter_drops_missing_keeps_nonzero_witness :
  In goodRow (setPairs [goodRow; emptyFieldRow])
  /\ ~ In emptyFieldRow (setPairs [goodRow; emptyFieldRow]).
Proof.
  split.
  - apply (load_filter_drops_missing_keeps_nonzero
             [goodRow; emptyFieldRow] goodRow).
    + simpl. left. reflexivity.
    + intros v Hv. simpl in Hv.
      destruct Hv as [<- | [<- | [<- | [<- | []]]]]; reflexivity.
  - apply (load_filter_drops_missing_keeps_nonzero
             [goodRow; emptyFieldRow] emptyFieldRow).
    + simpl. right. left. reflexivity.
    + exists JNull. split; [simpl; right; left; reflexivity | reflexivity].
Defined.

(** ** Pair store: the search filter *)

Lemma prefix_spec (t s : string) :
  String.prefix t s = true <-> exists post, s = (t ++ post)%string.
Proof.
  revert s. induction t as [| c t IH]; intros s.
  - split; [intros _; exists s; reflexivity |].
    intros _. destruct s; reflexivity.
  - destruct s as [| d s]; simpl.
    + split; [discriminate | intros [post H]; discriminate].
    + destruct (Ascii.ascii_dec c d) as [-> | Hne].
      * rewrite IH. split; intros [post H]; exists post.
        -- rewrite H. reflexivity.
        -- injection H as H. exact H.
      * split; [discriminate |].
        intros [post H]. injection H as H1 H2. congruence.
Qed.

Lemma includes_spec (s t : string) :
  includes s t = true <-> isSubstring t s.
Proof.
  unfold isSubstring. induction s as [| c s IH].
  - cbn [includes]. rewrite orb_false_r, prefix_spec. split.
    + intros [post H]. exists EmptyString, post. exact H.
    + intros [pre [post H]]. destruct pre as [| d pre]; [| discriminate].
      exists post. exact H.
  - cbn [includes]. rewrite orb_true_iff, prefix_spec, IH. split.
    + intros [[post H] | [pre [post H]]].
      * exists EmptyString, post. exact H.
      * exists (String c pre), post. simpl. rewrite H. reflexivity.
    + intros [pre [post H]]. destruct pre as [| d pre].
      * left. exists post. exact H.
      * right. simpl in H. injection H as _ H. exists pre, post. exact H.
Qed.

Section PairStoreProperties.

Variable toLowerCase : string -> string.

Lemma matchesSearch_spec (term : string) (p : CityPair) :
  matchesSearch toLowerCase (toLowerCase term) p = true <-> termOccurs toLowerCase term p.
Proof.
  unfold matchesSearch, termOccurs.
  rewrite !orb_true_iff, !includes_spec. tauto.
Qed.

Lemma filteredPairs_filter (pairs : list CityPair) (term : string) :
  term <> EmptyString ->
  filteredPairs toLowerCase pairs term
  = filter (matchesSearch toLowerCase (toLowerCase term)) pairs.
Proof.
  intros Hne. unfold filteredPairs.
  destruct (String.eqb_spec term EmptyString) as [E | _];
    [contradiction | reflexivity].
Qed.

(** C8: with the empty search term the filter returns the pair set it was
    given. *)
Theorem filteredPairs_empty_term :
  forall pairs : list CityPair,
    filteredPairs toLowerCase pairs EmptyString = pairs.
Proof. intros pairs. reflexivity. Qed.

(** The test that the filter applies to one field, for a lower-casing that
    keeps the empty string empty and other strings non-empty. *)
Lemma includes_field (term : string) (field : option string) :
  toLowerCase EmptyString = EmptyString ->
  toLowerCase term <> EmptyString ->
  includes (toLowerCase (orEmpty field)) (toLowerCase term) = true
  <-> occursIn toLowerCase term field.
Proof.
  intros Hempty Hlower. unfold occursIn. rewrite includes_spec.
  destruct field as [s |]; cbn [orEmpty].
  - split.
    + intros H. exists s. split; [reflexivity | exact H].
    + intros [s' [Hs' H]]. injection Hs' as <-. exact H.
  - rewrite Hempty. split.
    + intros [pre [post H]]. exfalso. apply Hlower.
      destruct pre; [| discriminate]. simpl in H.
      destruct (toLowerCase term); [reflexivity | discriminate].
    + intros [s' [Hs' _]]. discriminate.
Qed.

(** C9: for a non-empty term a pair is in the filtered set exactly when it
    is a loaded pair and the term is a case-insensitive substring of its
    city1, city2, country1 or country2 (a field that is [null] contains no
    term); a term that occurs in no pair gives the empty filtered set.
    Lower-casing is any function that keeps the empty string empty and
    every other string non-empty. *)
Theorem filteredPairs_nonempty_term :
  forall (pairs : list CityPair) (term : string),
    toLowerCase EmptyString = EmptyString ->
    (forall t : string, t <> EmptyString -> toLowerCase t <> EmptyString) ->
    term <> EmptyString ->
    (forall p, In p (filteredPairs toLowerCase pairs term)
               <-> In p pairs /\ caseInsensitiveMatch toLowerCase term p)
    /\ ((forall p, In p pairs -> ~ caseInsensitiveMatch toLowerCase term p) ->
        filteredPairs toLowerCase pairs term = []).
Proof.
  intros pairs term Hempty Hkeeps Hne.
  assert (Hmatch : forall p,
             matchesSearch toLowerCase (toLowerCase term) p = true
             <-> caseInsensitiveMatch toLowerCase term p).
  { intros p. unfold matchesSearch, caseInsensitiveMatch.
    rewrite !orb_true_iff.
    rewrite !(includes_field term _ Hempty (Hkeeps term Hne)). tauto. }
  rewrite (filteredPairs_filter pairs term Hne). split.
  - intros p. rewrite filter_In, Hmatch. reflexivity.
  - intros Hnone. induction pairs as [| q pairs IH]; [reflexivity |].
    simpl. destruct (matchesSearch toLowerCase (toLowerCase term) q) eqn:Hq.
    + exfalso. apply (Hnone q (or_introl eq_refl)).
      apply Hmatch, Hq.
    + apply IH. intros p Hp. apply Hnone. right. exact Hp.
Qed.

End PairStoreProperties.

Lemma asciiToLowerCase_nonempty (t : string) :
  t <> EmptyString -> asciiToLowerCase t <> EmptyString.
Proof.
  destruct t as [| c t]; [intros H; destruct (H eq_refl) | discriminate].
Qed.

Lemma occursIn_ascii (term s : string) :
  occursIn asciiToLowerCase term (Some s)
  <-> includes (asciiToLowerCase s) (asciiToLowerCase term) = true.
Proof.
  unfold occursIn. rewrite includes_spec. split.
  - intros [s' [Hs' H]]. injection Hs' as <-. exact H.
  - intros H. exists s. split; [reflexivity | exact H].
Qed.

Lemma filteredPairs_nonempty_term_witness :
  In pairAB (filteredPairs asciiToLowerCase [pairAB; pairAC] "y")
  /\ ~ In pairAC (filteredPairs asciiToLowerCase [pairAB; pairAC] "y")
  /\ filteredPairs asciiToLowerCase [pairAB; pairAC] "Q" = [].
Proof.
  destruct (filteredPairs_nonempty_term asciiToLowerCase [pairAB; pairAC] "y"
              eq_refl asciiToLowerCase_nonempty)
    as [Hiff _]; [discriminate |].
  destruct (filteredPairs_nonempty_term asciiToLowerCase [pairAB; pairAC] "Q"
              eq_refl asciiToLowerCase_nonempty)
    as [_ Hnone]; [discriminate |].
  split; [| split].
  - apply Hiff. split; [left; reflexivity |].
    right. right. right. apply occursIn_ascii. reflexivity.
  - intros Hin. apply Hiff in Hin. destruct Hin as [_ Hocc].
    destruct Hocc as [H | [H | [H | H]]];
      apply occursIn_ascii in H; vm_compute in H; discriminate.
  - apply Hnone. intros p Hp Hocc.
    simpl in Hp. destruct Hp as [<- | [<- | []]];
      destruct Hocc as [H | [H | [H | H]]];
      apply occursIn_ascii in H; vm_compute in H; discriminate.
Defined.

(** ** Node builder *)

Lemma key_eqb_refl (k : Key) : key_eqb k k = true.
Proof.
  unfold key_eqb. apply andb_true_iff. split; apply Qeq_bool_iff; reflexivity.
Qed.

Lemma key_eqb_sym (a b : Key) : key_eqb a b = key_eqb b a.
Proof.
  unfold key_eqb. f_equal; apply eq_true_iff_eq; rewrite !Qeq_bool_iff;
    split; intros H; symmetry; exact H.
Qed.

Lemma key_eqb_trans (a b c : Key) :
  key_eqb a b = true -> key_eqb b c = true -> key_eqb a c = true.
Proof.
  unfold key_eqb. rewrite !andb_true_iff, !Qeq_bool_iff.
  intros [H1 H2] [H3 H4]. split; etransitivity; eassumption.
Qed.

(** Equivalent keys are interchangeable on the right of [key_eqb]. *)
Lemma key_eqb_compat (a b c : Key) :
  key_eqb a b = true -> key_eqb c a = key_eqb c b.
Proof.
  intros Hab. apply eq_true_iff_eq. split; intros H.
  - eapply key_eqb_trans; eassumption.
  - eapply key_eqb_trans; [exact H |]. rewrite key_eqb_sym. exact Hab.
Qed.

Lemma map_has_compat (m : JsMap) (a b : Key) :
  key_eqb a b = true -> map_has m a = map_has m b.
Proof.
  intros Hab. induction m as [| [k v] m IH]; simpl; [reflexivity |].
  rewrite IH, (key_eqb_compat a b k Hab). reflexivity.
Qed.

Lemma map_get_compat (m : JsMap) (a b : Key) :
  key_eqb a b = true -> map_get m a = map_get m b.
Proof.
  intros Hab. induction m as [| [k v] m IH]; simpl; [reflexivity |].
  rewrite IH, (key_eqb_compat a b k Hab). reflexivity.
Qed.

Lemma map_get_absent (m : JsMap) (k : Key) :
  map_has m k = false -> map_get m k = None.
Proof.
  induction m as [| [k' v] m IH]; simpl; [reflexivity |].
  intros H. apply orb_false_iff in H. destruct H as [H1 H2].
  rewrite H1. apply IH, H2.
Qed.

Lemma map_has_set (m : JsMap) (k k' : Key) (v : CityNode) :
  map_has (map_set m k v) k' = map_has m k' || key_eqb k k'.
Proof.
  induction m as [| [k0 v0] m IH]; simpl.
  - rewrite orb_false_r. reflexivity.
  - destruct (key_eqb k0 k) eqn:E; simpl.
    + rewrite (key_eqb_sym k0 k) in E.
      destruct (key_eqb k0 k') eqn:E'; simpl; [reflexivity |].
      destruct (key_eqb k k') eqn:E2; [| rewrite orb_false_r; reflexivity].
      rewrite key_eqb_sym in E.
      rewrite (key_eqb_trans k0 k k' E E2) in E'. discriminate.
    + rewrite IH, orb_assoc. reflexivity.
Qed.

Lemma map_has_incr (m : JsMap) (k k' : Key) :
  map_has (map_incr m k) k' = map_has m k'.
Proof.
  induction m as [| [k0 v0] m IH]; simpl; [reflexivity |].
  destruct (key_eqb k0 k); simpl; [reflexivity | rewrite IH; reflexivity].
Qed.

Lemma map_has_ensure (m : JsMap) (k k' : Key) (v : CityNode) :
  map_has (ensureNode m k v) k' = map_has m k' || key_eqb k k'.
Proof.
  unfold ensureNode. destruct (map_has m k) eqn:E.
  - destruct (key_eqb k k') eqn:E'.
    + rewrite <- (map_has_compat m k k' E'), E. reflexivity.
    + rewrite orb_false_r. reflexivity.
  - apply map_has_set.
Qed.

Lemma connectionsAt_set_fresh (m : JsMap) (k k' : Key) (v : CityNode) :
  map_has m k = false ->
  connectionsAt (map_set m k v) k'
  = if key_eqb k k' then connections v else connectionsAt m k'.
Proof.
  unfold connectionsAt. induction m as [| [k0 v0] m IH]; simpl; intros Hfresh.
  - destruct (key_eqb k k'); reflexivity.
  - apply orb_false_iff in Hfresh. destruct Hfresh as [H0 Hm].
    rewrite H0. simpl. destruct (key_eqb k0 k') eqn:E0.
    + destruct (key_eqb k k') eqn:E; [| reflexivity].
      rewrite (key_eqb_sym k k') in E.
      rewrite (key_eqb_trans k0 k' k E0 E) in H0. discriminate.
    + apply IH, Hm.
Qed.

Lemma connectionsAt_incr (m : JsMap) (k k' : Key) :
  map_has m k = true ->
  connectionsAt (map_incr m k) k'
  = if key_eqb k k' then S (connectionsAt m k') else connectionsAt m k'.
Proof.
  unfold connectionsAt. induction m as [| [k0 v0] m IH]; simpl; intros Hhas.
  - discriminate.
  - destruct (key_eqb k0 k) eqn:E0; simpl.
    + destruct (key_eqb k k') eqn:E.
      * rewrite (key_eqb_trans k0 k k' E0 E). reflexivity.
      * destruct (key_eqb k0 k') eqn:E'; [| reflexivity].
        rewrite key_eqb_sym in E0.
        rewrite (key_eqb_trans k k0 k' E0 E') in E. discriminate.
    + simpl in Hhas. destruct (key_eqb k0 k') eqn:E'.
      * destruct (key_eqb k k') eqn:E; [| reflexivity].
        rewrite (key_eqb_sym k k') in E.
        rewrite (key_eqb_trans k0 k' k E' E) in E0. discriminate.
      * apply IH, Hhas.
Qed.

(** [ensureNode] followed by the increment adds one connection at the key
    and leaves the other keys alone. *)
Lemma connectionsAt_touch (m : JsMap) (k k' : Key) (v : CityNode) :
  connections v = 0%nat ->
  connectionsAt (map_incr (ensureNode m k v) k) k'
  = (connectionsAt m k' + Nat.b2n (key_eqb k k'))%nat.
Proof.
  intros Hv. rewrite connectionsAt_incr.
  - unfold ensureNode. destruct (map_has m k) eqn:E.
    + destruct (key_eqb k k'); simpl; lia.
    + rewrite (connectionsAt_set_fresh m k k' v E), Hv.
      destruct (key_eqb k k') eqn:E'; simpl; [| lia].
      unfold connectionsAt.
      rewrite <- (map_get_compat m k k' E'), (map_get_absent m k E). reflexivity.
  - rewrite map_has_ensure, key_eqb_refl. apply orb_true_r.
Qed.

Lemma connectionsAt_addPair (m : JsMap) (p : CityPair) (k : Key) :
  connectionsAt (addPair m p) k
  = (connectionsAt m k + Nat.b2n (key_eqb (key1 p) k)
     + Nat.b2n (key_eqb (key2 p) k))%nat.
Proof.
  unfold addPair. rewrite !connectionsAt_touch by reflexivity. reflexivity.
Qed.

Lemma map_has_addPair (m : JsMap) (p : CityPair) (k : Key) :
  map_has (addPair m p) k
  = map_has m k || (key_eqb (key1 p) k || key_eqb (key2 p) k).
Proof.
  unfold addPair.
  rewrite map_has_incr, map_has_ensure, map_has_incr, map_has_ensure.
  rewrite orb_assoc. reflexivity.
Qed.

Lemma countIf_cons {A : Type} (f : A -> bool) (a : A) (l : list A) :
  countIf f (a :: l) = (Nat.b2n (f a) + countIf f l)%nat.
Proof. unfold countIf. simpl. destruct (f a); reflexivity. Qed.

Lemma connectionsAt_fold (ps : list CityPair) (m : JsMap) (k : Key) :
  connectionsAt (fold_left addPair ps m) k
  = (connectionsAt m k + endpointCount k ps)%nat.
Proof.
  revert m. induction ps as [| p ps IH]; intros m; simpl.
  - unfold endpointCount, countIf. simpl. lia.
  - rewrite IH, connectionsAt_addPair. unfold endpointCount.
    rewrite !countIf_cons. lia.
Qed.

(** The count stored at a key is the number of pair endpoints at the key. *)
Lemma connectionsAt_cityMap (ps : list CityPair) (k : Key) :
  connectionsAt (cityMap ps) k = endpointCount k ps.
Proof. unfold cityMap. rewrite connectionsAt_fold. reflexivity. Qed.

Lemma map_has_fold (ps : list CityPair) (m : JsMap) (k : Key) :
  map_has (fold_left addPair ps m) k = map_has m k || isEndpoint k ps.
Proof.
  revert m. induction ps as [| p ps IH]; intros m; simpl.
  - rewrite orb_false_r. reflexivity.
  - rewrite IH, map_has_addPair.
    destruct (map_has m k), (key_eqb (key1 p) k), (key_eqb (key2 p) k);
      reflexivity.
Qed.

Lemma map_has_cityMap (ps : list CityPair) (k : Key) :
  map_has (cityMap ps) k = isEndpoint k ps.
Proof. unfold cityMap. rewrite map_has_fold. reflexivity. Qed.

(** *** The sum of the connection counts *)

Lemma mapTotal_set_fresh (m : JsMap) (k : Key) (v : CityNode) :
  map_has m k = false ->
  mapTotal (map_set m k v) = (mapTotal m + connections v)%nat.
Proof.
  unfold mapTotal. induction m as [| [k0 v0] m IH]; simpl; intros H.
  - lia.
  - apply orb_false_iff in H. destruct H as [H0 Hm]. rewrite H0. simpl.
    rewrite (IH Hm). lia.
Qed.

Lemma mapTotal_incr (m : JsMap) (k : Key) :
  map_has m k = true -> mapTotal (map_incr m k) = S (mapTotal m).
Proof.
  unfold mapTotal. induction m as [| [k0 v0] m IH]; simpl; intros H.
  - discriminate.
  - destruct (key_eqb k0 k); simpl in *; [reflexivity |].
    rewrite (IH H). lia.
Qed.

Lemma mapTotal_touch (m : JsMap) (k : Key) (v : CityNode) :
  connections v = 0%nat ->
  mapTotal (map_incr (ensureNode m k v) k) = S (mapTotal m).
Proof.
  intros Hv. rewrite mapTotal_incr.
  - unfold ensureNode. destruct (map_has m k) eqn:E; [reflexivity |].
    rewrite (mapTotal_set_fresh m k v E), Hv. lia.
  - rewrite map_has_ensure, key_eqb_refl. apply orb_true_r.
Qed.

Lemma mapTotal_addPair (m : JsMap) (p : CityPair) :
  mapTotal (addPair m p) = (mapTotal m + 2)%nat.
Proof.
  unfold addPair. rewrite !mapTotal_touch by reflexivity. lia.
Qed.

Lemma mapTotal_fold (ps : list CityPair) (m : JsMap) :
  mapTotal (fold_left addPair ps m) = (mapTotal m + 2 * List.length ps)%nat.
Proof.
  revert m. induction ps as [| p ps IH]; intros m; simpl.
  - lia.
  - rewrite IH, mapTotal_addPair. lia.
Qed.

Lemma endpointCount_app (k : Key) (ps qs : list CityPair) :
  endpointCount k (ps ++ qs) = (endpointCount k ps + endpointCount k qs)%nat.
Proof.
  unfold endpointCount, countIf. rewrite !filter_app, !length_app. lia.
Qed.

(** C2: the connection counts of the nodes built from a filtered pair list
    add up to twice the number of pairs, and a pair whose two endpoints have
    the same coordinate key adds two to the count of the single node at that
    key, wherever the pair stands in the list. *)
Theorem connections_sum_twice_pairs :
  forall filtered : list CityPair,
    totalConnections (cities filtered) = (2 * List.length filtered)%nat
    /\ (forall (pre post : list CityPair) (p : CityPair),
          filtered = pre ++ p :: post ->
          isSelfLoop p = true ->
          connectionsAt (cityMap filtered) (key1 p)
          = (connectionsAt (cityMap (pre ++ post)) (key1 p) + 2)%nat
          /\ map_get (cityMap filtered) (key2 p)
             = map_get (cityMap filtered) (key1 p)).
Proof.
  intros filtered. split.
  - unfold cities, cityMap. fold (mapTotal (fold_left addPair filtered [])).
    rewrite mapTotal_fold. reflexivity.
  - intros pre post p -> Hloop. unfold isSelfLoop in Hloop. split.
    + rewrite !connectionsAt_cityMap, !endpointCount_app.
      change (p :: post) with ([p] ++ post). rewrite endpointCount_app.
      unfold endpointCount at 2. rewrite !countIf_cons.
      rewrite key_eqb_refl, (key_eqb_sym (key2 p) (key1 p)), Hloop.
      unfold countIf. simpl. lia.
    + symmetry. apply map_get_compat, Hloop.
Qed.

Lemma connections_sum_twice_pairs_witness :
  connectionsAt (cityMap [pairAB; pairAA; pairAC]) (key1 pairAA)
  = (connectionsAt (cityMap ([pairAB] ++ [pairAC])) (key1 pairAA) + 2)%nat
  /\ map_get (cityMap [pairAB; pairAA; pairAC]) (key2 pairAA)
     = map_get (cityMap [pairAB; pairAA; pairAC]) (key1 pairAA).
Proof.
  apply (proj2 (connections_sum_twice_pairs [pairAB; pairAA; pairAC])
           [pairAB] [pairAC] pairAA).
  - reflexivity.
  - reflexivity.
Defined.

(** *** The shape of the built map *)

Lemma wfMap_incr (m : JsMap) (k : Key) : wfMap m -> wfMap (map_incr m k).
Proof.
  induction m as [| [k0 v0] m IH]; simpl; [trivial |].
  intros [Hk [Hfresh Hm]]. destruct (key_eqb k0 k); simpl.
  - auto.
  - rewrite map_has_incr. auto.
Qed.

Lemma wfMap_set_fresh (m : JsMap) (k : Key) (v : CityNode) :
  nodeKey v = k -> map_has m k = false -> wfMap m -> wfMap (map_set m k v).
Proof.
  intros Hv. induction m as [| [k0 v0] m IH]; simpl.
  - auto.
  - intros Hfresh [Hk [Hfresh0 Hm]].
    apply orb_false_iff in Hfresh. destruct Hfresh as [H0 Hfresh].
    rewrite H0. simpl. rewrite map_has_set, Hfresh0.
    rewrite key_eqb_sym, H0. auto.
Qed.

Lemma wfMap_ensure (m : JsMap) (k : Key) (v : CityNode) :
  nodeKey v = k -> wfMap m -> wfMap (ensureNode m k v).
Proof.
  intros Hv Hm. unfold ensureNode. destruct (map_has m k) eqn:E.
  - exact Hm.
  - apply wfMap_set_fresh; assumption.
Qed.

Lemma wfMap_addPair (m : JsMap) (p : CityPair) : wfMap m -> wfMap (addPair m p).
Proof.
  intros Hm. unfold addPair.
  apply wfMap_incr, wfMap_ensure; [reflexivity |].
  apply wfMap_incr, wfMap_ensure; [reflexivity | exact Hm].
Qed.

Lemma wfMap_cityMap (ps : list CityPair) : wfMap (cityMap ps).
Proof.
  unfold cityMap. generalize (I : wfMap []). generalize (@nil (Key * CityNode)).
  induction ps as [| p ps IH]; intros m Hm; simpl.
  - exact Hm.
  - apply IH, wfMap_addPair, Hm.
Qed.

Lemma map_has_In (m : JsMap) (k : Key) (c : CityNode) :
  In (k, c) m -> map_has m k = true.
Proof.
  induction m as [| [k0 v0] m IH]; simpl; [contradiction |].
  intros [E | Hin].
  - injection E as -> _. rewrite key_eqb_refl. reflexivity.
  - rewrite (IH Hin). apply orb_true_r.
Qed.

Lemma map_get_In (m : JsMap) (k : Key) (c : CityNode) :
  wfMap m -> In (k, c) m -> map_get m k = Some c.
Proof.
  induction m as [| [k0 v0] m IH]; simpl; [contradiction |].
  intros [Hk [Hfresh Hm]] [E | Hin].
  - injection E as -> ->. rewrite key_eqb_refl. reflexivity.
  - destruct (key_eqb k0 k) eqn:E0.
    + rewrite (map_has_compat m k0 k E0), (map_has_In m k c Hin) in Hfresh.
      discriminate.
    + apply IH; assumption.
Qed.

Lemma wfMap_nodeKey (m : JsMap) (k : Key) (c : CityNode) :
  wfMap m -> In (k, c) m -> nodeKey c = k.
Proof.
  induction m as [| [k0 v0] m IH]; simpl; [contradiction |].
  intros [Hk [_ Hm]] [E | Hin].
  - injection E as <- <-. exact Hk.
  - apply IH; assumption.
Qed.

Lemma map_get_found (m : JsMap) (k : Key) :
  map_has m k = true ->
  exists k' c, In (k', c) m /\ key_eqb k' k = true /\ map_get m k = Some c.
Proof.
  induction m as [| [k0 v0] m IH]; simpl; [discriminate |].
  destruct (key_eqb k0 k) eqn:E0; simpl.
  - intros _. exists k0, v0. auto.
  - intros H. destruct (IH H) as [k' [c [Hin [Hk Hget]]]].
    exists k', c. auto.
Qed.

(** A node of [cities] is stored under the key of its coordinates, and its
    count is the number of pair endpoints at that key. *)
Lemma cities_node_count (ps : list CityPair) (c : CityNode) :
  In c (cities ps) -> connections c = endpointCount (nodeKey c) ps.
Proof.
  unfold cities. intros Hin. apply in_map_iff in Hin.
  destruct Hin as [[k c'] [Hc Hin]]. simpl in Hc. subst c'.
  pose proof (wfMap_cityMap ps) as Hwf.
  pose proof (wfMap_nodeKey _ k c Hwf Hin) as Hk.
  rewrite <- connectionsAt_cityMap. unfold connectionsAt.
  rewrite Hk, (map_get_In _ k c Hwf Hin). reflexivity.
Qed.

Lemma touchesCity_keys (c : CityNode) (p : CityPair) :
  touchesCity c p
  = key_eqb (key1 p) (nodeKey c) || key_eqb (key2 p) (nodeKey c).
Proof.
  unfold touchesCity, key_eqb, key1, key2, nodeKey. simpl.
  rewrite (andb_comm (Qeq_bool (lng1 p) _)), (andb_comm (Qeq_bool (lng2 p) _)).
  reflexivity.
Qed.

Lemma selfLoopAt_keys (c : CityNode) (p : CityPair) :
  selfLoopAt c p
  = key_eqb (key1 p) (nodeKey c) && key_eqb (key2 p) (nodeKey c).
Proof.
  unfold selfLoopAt, key_eqb, key1, key2, nodeKey. simpl.
  rewrite (andb_comm (Qeq_bool (lng1 p) _)), (andb_comm (Qeq_bool (lng2 p) _)).
  reflexivity.
Qed.

Lemma countIf_ext {A : Type} (f g : A -> bool) (l : list A) :
  (forall a, f a = g a) -> countIf f l = countIf g l.
Proof.
  intros H. induction l as [| a l IH]; [reflexivity |].
  rewrite !countIf_cons, IH, H. reflexivity.
Qed.

(** Inclusion and exclusion for two tests on a list. *)
Lemma countIf_or_and {A : Type} (f g : A -> bool) (l : list A) :
  (countIf (fun a => f a || g a) l + countIf (fun a => f a && g a) l
   = countIf f l + countIf g l)%nat.
Proof.
  induction l as [| a l IH]; [reflexivity |].
  rewrite !countIf_cons. destruct (f a), (g a); simpl; lia.
Qed.

(** C10: the connection count of a built node is the number of filtered
    pairs that touch its coordinate plus the number of self-loop pairs at
    that coordinate; so the list that [findPairsForCity] returns is as long
    as the count exactly when no self-loop pair lies at the node, and is
    strictly shorter otherwise. *)
Theorem connections_count_touching_plus_loops :
  forall (filtered : list CityPair) (c : CityNode),
    In c (cities filtered) ->
    connections c
    = (List.length (findPairsForCity filtered c)
       + countIf (selfLoopAt c) filtered)%nat
    /\ (countIf (selfLoopAt c) filtered = 0%nat <->
        List.length (findPairsForCity filtered c) = connections c)
    /\ (countIf (selfLoopAt c) filtered <> 0%nat ->
        (List.length (findPairsForCity filtered c) < connections c)%nat).
Proof.
  intros filtered c Hin.
  assert (Hcount : connections c
                   = (List.length (findPairsForCity filtered c)
                      + countIf (selfLoopAt c) filtered)%nat).
  { rewrite (cities_node_count filtered c Hin). unfold endpointCount.
    rewrite <- countIf_or_and. unfold findPairsForCity.
    fold (countIf (touchesCity c) filtered). f_equal.
    - apply countIf_ext. intros p. symmetry. apply touchesCity_keys.
    - apply countIf_ext. intros p. symmetry. apply selfLoopAt_keys. }
  split; [exact Hcount |]. split; [split |]; lia.
Qed.

Lemma connections_count_touching_plus_loops_witness :
  In nodeA (cities [pairAB; pairAA; pairAC])
  /\ connections nodeA
     = (List.length (findPairsForCity [pairAB; pairAA; pairAC] nodeA)
        + countIf (selfLoopAt nodeA) [pairAB; pairAA; pairAC])%nat.
Proof.
  assert (Hin : In nodeA (cities [pairAB; pairAA; pairAC])).
  { left. reflexivity. }
  split; [exact Hin |].
  exact (proj1 (connections_count_touching_plus_loops
                  [pairAB; pairAA; pairAC] nodeA Hin)).
Defined.

(** The scenario of the specification: A has two connections, B and C one
    each, and selecting A finds two pairs. *)
Example scenario_connection_counts :
  map (fun c => (name c, connections c)) (cities [pairAB; pairAC])
  = [(Some "A"%string, 2%nat); (Some "B"%string, 1%nat); (Some "C"%string, 1%nat)].
Proof. reflexivity. Qed.

Example scenario_selection_pairs :
  map (fun c => List.length (findPairsForCity [pairAB; pairAC] c))
      (cities [pairAB; pairAC])
  = [2%nat; 1%nat; 1%nat].
Proof. reflexivity. Qed.

(** With the pair A-A in the list, A counts four connections and three
    pairs touch it. *)
Example self_loop_counts :
  map (fun c => (connections c, List.length (findPairsForCity examplePairs c)))
      (cities examplePairs)
  = [(4%nat, 3%nat); (1%nat, 1%nat); (1%nat, 1%nat)].
Proof. reflexivity. Qed.

(** *** Iteration order *)

Lemma map_set_fresh_app (m : JsMap) (k : Key) (v : CityNode) :
  map_has m k = false -> map_set m k v = m ++ [(k, v)].
Proof.
  induction m as [| [k0 v0] m IH]; simpl; intros H; [reflexivity |].
  apply orb_false_iff in H. destruct H as [H0 Hm].
  rewrite H0, (IH Hm). reflexivity.
Qed.

Lemma set_has_keys (m : JsMap) (k : Key) :
  set_has (map fst m) k = map_has m k.
Proof.
  induction m as [| [k0 v0] m IH]; simpl; [reflexivity |].
  rewrite IH. reflexivity.
Qed.

Lemma keys_incr (m : JsMap) (k : Key) : map fst (map_incr m k) = map fst m.
Proof.
  induction m as [| [k0 v0] m IH]; simpl; [reflexivity |].
  destruct (key_eqb k0 k); simpl; [reflexivity | rewrite IH; reflexivity].
Qed.

Lemma keys_ensure (m : JsMap) (k : Key) (v : CityNode) :
  map fst (ensureNode m k v) = set_add (map fst m) k.
Proof.
  unfold ensureNode, set_add. rewrite set_has_keys.
  destruct (map_has m k) eqn:E; [reflexivity |].
  rewrite (map_set_fresh_app m k v E), map_app. reflexivity.
Qed.

Lemma keys_addPair (m : JsMap) (p : CityPair) :
  map fst (addPair m p) = set_add (set_add (map fst m) (key1 p)) (key2 p).
Proof.
  unfold addPair. rewrite keys_incr, keys_ensure, keys_incr, keys_ensure.
  reflexivity.
Qed.

Lemma keys_fold (ps : list CityPair) (m : JsMap) :
  map fst (fold_left addPair ps m)
  = fold_left (fun set p => set_add (set_add set (key1 p)) (key2 p)) ps
      (map fst m).
Proof.
  revert m. induction ps as [| p ps IH]; intros m; simpl; [reflexivity |].
  rewrite IH, keys_addPair. reflexivity.
Qed.

Lemma map_get_None_has (m : JsMap) (k : Key) :
  map_get m k = None -> map_has m k = false.
Proof.
  induction m as [| [k0 v0] m IH]; simpl; [reflexivity |].
  destruct (key_eqb k0 k); [discriminate | exact IH].
Qed.

Lemma map_get_snoc (m : JsMap) (k' k : Key) (v : CityNode) :
  map_get (m ++ [(k', v)]) k
  = match map_get m k with
    | Some c => Some c
    | None => if key_eqb k' k then Some v else None
    end.
Proof.
  induction m as [| [k0 v0] m IH]; simpl; [reflexivity |].
  destruct (key_eqb k0 k); [reflexivity | exact IH].
Qed.

Lemma nodeInfo_incr (m : JsMap) (k' k : Key) :
  option_map nodeInfo (map_get (map_incr m k') k)
  = option_map nodeInfo (map_get m k).
Proof.
  induction m as [| [k0 v0] m IH]; simpl; [reflexivity |].
  destruct (key_eqb k0 k') eqn:E; simpl.
  - destruct (key_eqb k0 k); reflexivity.
  - destruct (key_eqb k0 k); [reflexivity | exact IH].
Qed.

Lemma nodeInfo_ensure (m : JsMap) (k' k : Key) (v : CityNode) :
  option_map nodeInfo (map_get (ensureNode m k' v) k)
  = match option_map nodeInfo (map_get m k) with
    | Some i => Some i
    | None => if key_eqb k' k then Some (nodeInfo v) else None
    end.
Proof.
  unfold ensureNode. destruct (map_has m k') eqn:Hhas.
  - destruct (map_get m k) as [c |] eqn:Hget; simpl; [reflexivity |].
    destruct (key_eqb k' k) eqn:E; [| reflexivity].
    rewrite (map_has_compat m k' k E), (map_get_None_has m k Hget) in Hhas.
    discriminate.
  - rewrite (map_set_fresh_app m k' v Hhas), map_get_snoc.
    destruct (map_get m k); simpl; [reflexivity |].
    destruct (key_eqb k' k); reflexivity.
Qed.

Lemma nodeInfo_fold (ps : list CityPair) (m : JsMap) (k : Key) :
  option_map nodeInfo (map_get (fold_left addPair ps m) k)
  = match option_map nodeInfo (map_get m k) with
    | Some i => Some i
    | None => firstMention k ps
    end.
Proof.
  revert m. induction ps as [| p ps IH]; intros m; simpl.
  - destruct (option_map nodeInfo (map_get m k)); reflexivity.
  - rewrite IH. unfold addPair.
    rewrite nodeInfo_incr, nodeInfo_ensure, nodeInfo_incr, nodeInfo_ensure.
    destruct (option_map nodeInfo (map_get m k)) as [i |]; [reflexivity |].
    unfold nodeInfo. cbn [name country coords].
    destruct (key_eqb (key1 p) k); [destruct (country1 p); reflexivity |].
    destruct (key_eqb (key2 p) k); [destruct (country2 p); reflexivity |].
    reflexivity.
Qed.

Lemma set_has_compat (s : JsSet) (a b : Key) :
  key_eqb a b = true -> set_has s a = set_has s b.
Proof.
  intros Hab. induction s as [| k s IH]; simpl; [reflexivity |].
  rewrite IH, (key_eqb_compat a b k Hab). reflexivity.
Qed.

Lemma set_has_snoc (s : JsSet) (k x : Key) :
  set_has (s ++ [k]) x = set_has s x || key_eqb k x.
Proof.
  induction s as [| k0 s IH]; simpl.
  - apply orb_false_r.
  - rewrite IH, orb_assoc. reflexivity.
Qed.

Lemma filter_filter {A : Type} (f g : A -> bool) (l : list A) :
  filter f (filter g l) = filter (fun x => g x && f x) l.
Proof.
  induction l as [| a l IH]; simpl; [reflexivity |].
  destruct (g a); simpl; [destruct (f a); rewrite IH; reflexivity | exact IH].
Qed.

(** Adding keys to a set one after the other appends, in their order, the
    first occurrences of the keys that the set does not yet hold. *)
Lemma set_add_fold (ks : list Key) (acc : JsSet) :
  fold_left set_add ks acc
  = acc ++ filter (fun k => negb (set_has acc k)) (firstOccurrences ks).
Proof.
  revert acc. induction ks as [| k ks IH]; intros acc; simpl.
  - rewrite app_nil_r. reflexivity.
  - rewrite IH. unfold set_add. destruct (set_has acc k) eqn:E; simpl.
    + f_equal. rewrite filter_filter. apply filter_ext. intros x.
      destruct (key_eqb k x) eqn:Ex; [| reflexivity].
      rewrite <- (set_has_compat acc k x Ex), E. reflexivity.
    + rewrite <- app_assoc. simpl. f_equal. f_equal.
      rewrite filter_filter. apply filter_ext. intros x.
      rewrite set_has_snoc, negb_orb. apply andb_comm.
Qed.

Lemma mentions_fold (ps : list CityPair) (acc : JsSet) :
  fold_left (fun set p => set_add (set_add set (key1 p)) (key2 p)) ps acc
  = fold_left set_add (mentions ps) acc.
Proof.
  revert acc. induction ps as [| p ps IH]; intros acc; [reflexivity |].
  simpl. apply IH.
Qed.

Lemma wfMap_keys (m : JsMap) :
  wfMap m -> map nodeKey (map snd m) = map fst m.
Proof.
  induction m as [| [k c] m IH]; simpl; [reflexivity |].
  intros [Hk [_ Hm]]. rewrite Hk, (IH Hm). reflexivity.
Qed.


Lemma countIf_Permutation {A : Type} (f : A -> bool) (l l' : list A) :
  Permutation l l' -> countIf f l = countIf f l'.
Proof.
  intros H. induction H as [| a l l' _ IH | a b l | l l' l'' _ IH1 _ IH2].
  - reflexivity.
  - rewrite !countIf_cons, IH. reflexivity.
  - rewrite !countIf_cons. lia.
  - congruence.
Qed.

Lemma existsb_Permutation {A : Type} (f : A -> bool) (l l' : list A) :
  Permutation l l' -> existsb f l = existsb f l'.
Proof.
  intros H. induction H as [| a l l' _ IH | a b l | l l' l'' _ IH1 _ IH2]; simpl.
  - reflexivity.
  - rewrite IH. reflexivity.
  - destruct (f a), (f b); reflexivity.
  - congruence.
Qed.

(** C6, as stated, fails: the two orders of these two pairs give different
    node lists, and the node at the shared coordinate takes its name and
    country from whichever pair comes first. *)
Lemma cities_depend_on_order :
  Permutation [pairHagueWarsaw; pairDenHaagJuigalpa]
              [pairDenHaagJuigalpa; pairHagueWarsaw]
  /\ cities [pairHagueWarsaw; pairDenHaagJuigalpa]
     <> cities [pairDenHaagJuigalpa; pairHagueWarsaw]
  /\ option_map (fun c => (name c, country c))
       (map_get (cityMap [pairHagueWarsaw; pairDenHaagJuigalpa])
                (key1 pairHagueWarsaw))
     = Some (Some "The Hague"%string, "Netherlands"%string)
  /\ option_map (fun c => (name c, country c))
       (map_get (cityMap [pairDenHaagJuigalpa; pairHagueWarsaw])
                (key1 pairHagueWarsaw))
     = Some (Some "Den Haag"%string, "Nederland"%string).
Proof.
  split; [apply perm_swap |]. split; [| split; reflexivity].
  intros H. apply (f_equal (fun l => map name l)) in H.
  vm_compute in H. discriminate H.
Qed.

(** C6 (amended): the two node maps built from a pair list and from a
    permutation of it have the same keys and the same connection count at
    every key, and to every node of one node list corresponds a node of the
    other at the same coordinate with the same count.  The name, country
    and coordinates of the node at a key are those of the first mention of
    the key in the pair list, and the node list is in the order in which
    the keys are first mentioned: both depend on the iteration order. *)
Theorem connection_counts_order_independent :
  forall ps qs : list CityPair,
    Permutation ps qs ->
    (forall k : Key,
        map_has (cityMap ps) k = map_has (cityMap qs) k
        /\ connectionsAt (cityMap ps) k = connectionsAt (cityMap qs) k)
    /\ (forall c, In c (cities ps) ->
          exists c', In c' (cities qs)
                     /\ key_eqb (nodeKey c') (nodeKey c) = true
                     /\ connections c' = connections c)
    /\ (forall k : Key,
          option_map nodeInfo (map_get (cityMap ps) k) = firstMention k ps)
    /\ map nodeKey (cities ps) = firstOccurrences (mentions ps).
Proof.
  intros ps qs Hperm.
  assert (Hinfo : forall k : Key,
             option_map nodeInfo (map_get (cityMap ps) k) = firstMention k ps).
  { intros k. unfold cityMap. rewrite nodeInfo_fold. reflexivity. }
  assert (Horder : map nodeKey (cities ps) = firstOccurrences (mentions ps)).
  { unfold cities. rewrite (wfMap_keys _ (wfMap_cityMap ps)).
    unfold cityMap. rewrite keys_fold, mentions_fold, set_add_fold.
    simpl. clear. induction (firstOccurrences (mentions ps)) as [| k l IH];
      simpl; [reflexivity | rewrite IH; reflexivity]. }
  cut ((forall k : Key,
           map_has (cityMap ps) k = map_has (cityMap qs) k
           /\ connectionsAt (cityMap ps) k = connectionsAt (cityMap qs) k)
       /\ (forall c, In c (cities ps) ->
             exists c', In c' (cities qs)
                        /\ key_eqb (nodeKey c') (nodeKey c) = true
                        /\ connections c' = connections c)).
  { intros [H1 H2]. auto. }
  clear Hinfo Horder.
  assert (Hkeys : forall k, map_has (cityMap ps) k = map_has (cityMap qs) k).
  { intros k. rewrite !map_has_cityMap. apply existsb_Permutation, Hperm. }
  assert (Hcnt : forall k, endpointCount k ps = endpointCount k qs).
  { intros k. unfold endpointCount.
    rewrite (countIf_Permutation _ ps qs Hperm).
    rewrite (countIf_Permutation (fun p => key_eqb (key2 p) k) ps qs Hperm).
    reflexivity. }
  split.
  - intros k. split; [apply Hkeys |].
    rewrite !connectionsAt_cityMap. apply Hcnt.
  - intros c Hc.
    pose proof (cities_node_count ps c Hc) as Hconn.
    assert (Hhas : map_has (cityMap qs) (nodeKey c) = true).
    { rewrite <- Hkeys. unfold cities in Hc. apply in_map_iff in Hc.
      destruct Hc as [[k c0] [E Hin]]. simpl in E. subst c0.
      rewrite (wfMap_nodeKey _ k c (wfMap_cityMap ps) Hin).
      apply (map_has_In _ _ _ Hin). }
    destruct (map_get_found _ _ Hhas) as [k' [c' [Hin' [Hk' Hget']]]].
    assert (Hc' : In c' (cities qs)).
    { unfold cities. apply in_map_iff. exists (k', c'). auto. }
    exists c'. split; [exact Hc' |].
    pose proof (cities_node_count qs c' Hc') as Hconn'.
    pose proof (wfMap_nodeKey _ k' c' (wfMap_cityMap qs) Hin') as Hnk.
    split; [rewrite Hnk; exact Hk' |].
    rewrite Hconn', Hconn, <- Hcnt.
    rewrite <- !connectionsAt_cityMap. unfold connectionsAt.
    rewrite Hnk, (map_get_compat (cityMap ps) k' (nodeKey c) Hk').
    reflexivity.
Qed.

Lemma connection_counts_order_independent_witness :
  Permutation [pairHagueWarsaw; pairDenHaagJuigalpa]
              [pairDenHaagJuigalpa; pairHagueWarsaw]
  /\ connectionsAt (cityMap [pairHagueWarsaw; pairDenHaagJuigalpa])
       (key1 pairHagueWarsaw)
     = connectionsAt (cityMap [pairDenHaagJuigalpa; pairHagueWarsaw])
         (key1 pairHagueWarsaw).
Proof.
  assert (Hperm : Permutation [pairHagueWarsaw; pairDenHaagJuigalpa]
                              [pairDenHaagJuigalpa; pairHagueWarsaw]).
  { apply perm_swap. }
  split; [exact Hperm |].
  exact (proj2 (proj1 (connection_counts_order_independent _ _ Hperm)
                  (key1 pairHagueWarsaw))).
Defined.

(** ** Interaction controller: zoom *)

Lemma Math_max_lower (a b : Q) : b <= Math_max a b.
Proof.
  unfold Math_max. destruct (Qle_bool a b) eqn:E.
  - apply Qle_refl.
  - destruct (Qlt_le_dec b a) as [H | H]; [apply Qlt_le_weak, H |].
    apply Qle_bool_iff in H. congruence.
Qed.

Lemma Math_max_upper (a b c : Q) : a <= c -> b <= c -> Math_max a b <= c.
Proof. unfold Math_max. destruct (Qle_bool a b); auto. Qed.

Lemma Math_min_upper (a b : Q) : Math_min a b <= b.
Proof.
  unfold Math_min. destruct (Qle_bool a b) eqn:E.
  - apply Qle_bool_iff, E.
  - apply Qle_refl.
Qed.

Lemma Math_min_lower (a b c : Q) : c <= a -> c <= b -> c <= Math_min a b.
Proof. unfold Math_min. destruct (Qle_bool a b); auto. Qed.

Section ZoomInvariant.

Variable round : Q -> Q.
Variable filtered : list CityPair.

(** Rounding is monotone and leaves 0, 1/2, 1 and 20 as they are. *)
Hypothesis round_monotone : forall a b : Q, a <= b -> round a <= round b.
Hypothesis round_0 : round 0 == 0.
Hypothesis round_half : round (1 # 2) == 1 # 2.
Hypothesis round_1 : round 1 == 1.
Hypothesis round_20 : round 20 == 20.

Lemma handleWheel_range (deltaY : Q) (s : AppState) :
  zoomInRange (zoom (handleWheel round deltaY s)).
Proof.
  unfold handleWheel, zoomInRange. simpl. split.
  - apply Math_min_lower; [apply Math_max_lower | discriminate].
  - apply Math_min_upper.
Qed.

Lemma zoomIn_range (s : AppState) :
  zoomInRange (zoom s) -> zoomInRange (zoom (zoomIn round s)).
Proof.
  unfold zoomIn, zoomInRange. simpl. intros [Hlo Hhi]. split.
  - apply Math_min_lower; [| discriminate].
    rewrite <- round_half. apply round_monotone.
    assert (H14 : 1 <= round (14 # 10)).
    { rewrite <- round_1. apply round_monotone. discriminate. }
    nra.
  - apply Math_min_upper.
Qed.

Lemma zoomOut_range (s : AppState) :
  zoomInRange (zoom s) -> zoomInRange (zoom (zoomOut round s)).
Proof.
  unfold zoomOut, zoomInRange. simpl. intros [Hlo Hhi]. split.
  - apply Math_max_lower.
  - apply Math_max_upper; [| discriminate].
    rewrite <- round_20. apply round_monotone.
    assert (H07 : round (7 # 10) <= 1).
    { rewrite <- round_1. apply round_monotone. discriminate. }
    assert (H07' : 0 <= round (7 # 10)).
    { rewrite <- round_0. apply round_monotone. discriminate. }
    nra.
Qed.

Lemma handleMouseMove_zoom (x y : Q) (container : option (Q * Q)) (s : AppState) :
  zoom (handleMouseMove x y container s) = zoom s.
Proof.
  unfold handleMouseMove. destruct (negb (isPanning s)); [reflexivity |].
  destruct (negb (isDragging s) && _); [reflexivity |].
  destruct container as [[width height] |]; reflexivity.
Qed.

Lemma handleCityClick_zoom (city : CityNode) (s : AppState) :
  zoom (handleCityClick filtered city s) = zoom s.
Proof.
  unfold handleCityClick. destruct (isDragging s); [reflexivity |].
  destruct (clickedIsSelected s city); reflexivity.
Qed.

Lemma step_range (s : AppState) (e : Event) :
  zoomInRange (zoom s) -> zoomInRange (zoom (step round filtered s e)).
Proof.
  intros Hs. destruct e; simpl.
  - apply handleWheel_range.
  - unfold handleMouseDown. destruct (_ || _); exact Hs.
  - rewrite handleMouseMove_zoom. exact Hs.
  - exact Hs.
  - exact Hs.
  - exact Hs.
  - apply zoomIn_range, Hs.
  - apply zoomOut_range, Hs.
  - split; discriminate.
  - rewrite handleCityClick_zoom. exact Hs.
  - unfold handleMapClick. destruct (isDragging s); [exact Hs |].
    destruct (selectedCity s); exact Hs.
Qed.

Lemma run_range (events : list Event) (s : AppState) :
  zoomInRange (zoom s) -> zoomInRange (zoom (run round filtered s events)).
Proof.
  revert s. induction events as [| e events IH]; intros s Hs; simpl.
  - exact Hs.
  - apply IH, step_range, Hs.
Qed.

(** C4: after any finite sequence of events from the initial state (wheel
    events of any [deltaY], zoom-in and zoom-out clicks among them) the
    zoom lies in [0.5, 20], and a wheel event leaves the pan as it was. *)
Theorem zoom_stays_clamped :
  forall events : list Event,
    zoomInRange (zoom (run round filtered initialState events))
    /\ (forall (s : AppState) (deltaY : Q),
          pan (handleWheel round deltaY s) = pan s).
Proof.
  intros events. split.
  - apply run_range. split; discriminate.
  - intros s deltaY. reflexivity.
Qed.

End ZoomInvariant.

(** Twenty clicks on zoom-in reach the upper bound, and twenty clicks on
    zoom-out the lower one. *)
Example zoom_in_saturates :
  zoom (run exact examplePairs initialState (repeat ZoomInClick 20)) == 20.
Proof. vm_compute. reflexivity. Qed.

Example zoom_out_saturates :
  zoom (run exact examplePairs initialState (repeat ZoomOutClick 20)) == 1 # 2.
Proof. vm_compute. reflexivity. Qed.

Lemma zoom_stays_clamped_witness :
  zoomInRange
    (zoom (run (fun q => q) [pairAB; pairAC] initialState
             [ZoomOutClick; ZoomOutClick; Wheel 100; Wheel (-(3)); ZoomInClick]))
  /\ (forall (s : AppState) (deltaY : Q),
        pan (handleWheel (fun q => q) deltaY s) = pan s).
Proof.
  apply (zoom_stays_clamped (fun q => q) [pairAB; pairAC]).
  - intros a b H. exact H.
  - reflexivity.
  - reflexivity.
  - reflexivity.
  - reflexivity.
Defined.

(** ** Interaction controller: drag versus click *)

Lemma Qltb_lt (a b : Q) : Qltb a b = true <-> a < b.
Proof.
  unfold Qltb. rewrite negb_true_iff. split.
  - intros H. destruct (Qlt_le_dec a b) as [Hlt | Hle]; [exact Hlt |].
    apply Qle_bool_iff in Hle. congruence.
  - intros Hlt. destruct (Qle_bool b a) eqn:E; [| reflexivity].
    apply Qle_bool_iff in E. exfalso. apply (Qlt_not_le a b Hlt E).
Qed.

Lemma reachesThreshold_spec (start : Q * Q) (m : Q * Q * option (Q * Q)) :
  reachesThreshold start m = true
  <-> 3 <= pixelDisplacement start (fst (fst m)) (snd (fst m)).
Proof.
  unfold reachesThreshold. rewrite negb_true_iff. split.
  - intros H. apply Qnot_lt_le. intros Hlt.
    apply Qltb_lt in Hlt. congruence.
  - intros Hle. destruct (Qltb _ 3) eqn:E; [| reflexivity].
    apply Qltb_lt in E. exfalso. apply (Qlt_not_le _ _ E Hle).
Qed.

Section Gesture.

Variable round : Q -> Q.
Variable filtered : list CityPair.

(** One pointer move while panning: the start of the gesture and the
    selection stay, and the drag flag is set once the threshold is
    reached. *)
Lemma handleMouseMove_panning (m : Q * Q * option (Q * Q)) (s : AppState) :
  isPanning s = true ->
  let s' := step round filtered s (moveEvent m) in
  isPanning s' = true
  /\ panStart s' = panStart s
  /\ selectedCity s' = selectedCity s
  /\ isDragging s' = isDragging s || reachesThreshold (panStart s) m.
Proof.
  intros Hpan. destruct m as [[x y] container].
  unfold moveEvent, reachesThreshold, pixelDisplacement.
  cbn [step fst snd]. unfold handleMouseMove. rewrite Hpan.
  destruct (Qltb (Qabs (x - fst (panStart s)) + Qabs (y - snd (panStart s))) 3);
    destruct (isDragging s) eqn:Hdrag; cbn [negb andb orb].
  - destruct container as [[width height] |]; cbn; auto.
  - rewrite Hdrag. auto.
  - destruct container as [[width height] |]; cbn; auto.
  - destruct container as [[width height] |]; cbn; auto.
Qed.

Lemma moves_panning (moves : list (Q * Q * option (Q * Q))) (s : AppState) :
  isPanning s = true ->
  let s' := run round filtered s (map moveEvent moves) in
  isPanning s' = true
  /\ panStart s' = panStart s
  /\ selectedCity s' = selectedCity s
  /\ isDragging s' = isDragging s || existsb (reachesThreshold (panStart s)) moves.
Proof.
  revert s. induction moves as [| m moves IH]; intros s Hpan; simpl.
  - rewrite orb_false_r. auto.
  - destruct (handleMouseMove_panning m s Hpan) as [H1 [H2 [H3 H4]]].
    destruct (IH _ H1) as [I1 [I2 [I3 I4]]].
    unfold run in *. simpl in *.
    rewrite I1, I2, I3, I4, H2, H3, H4, orb_assoc. auto.
Qed.

(** The state in which the click handler runs, after the press, the moves
    and the release. *)
Lemma gesture_before_click (button : Z) (x0 y0 : Q)
    (moves : list (Q * Q * option (Q * Q))) (s : AppState) :
  button = 0%Z \/ button = 1%Z ->
  let s' := run round filtered s
              (MouseDown button x0 y0 :: map moveEvent moves ++ [MouseUp]) in
  selectedCity s' = selectedCity s
  /\ isDragging s' = existsb (reachesThreshold (x0, y0)) moves.
Proof.
  intros Hb. unfold run. simpl. rewrite fold_left_app. simpl.
  assert (Hdown : handleMouseDown button x0 y0 s
                  = {| zoom := zoom s; pan := pan s; isPanning := true;
                       isDragging := false; panStart := (x0, y0);
                       panOrigin := pan s; selectedCity := selectedCity s;
                       citiesArray := citiesArray s;
                       selectedArray := selectedArray s |}).
  { unfold handleMouseDown. destruct Hb as [-> | ->]; reflexivity. }
  rewrite Hdown.
  destruct (moves_panning moves
              {| zoom := zoom s; pan := pan s; isPanning := true;
                 isDragging := false; panStart := (x0, y0);
                 panOrigin := pan s; selectedCity := selectedCity s;
                 citiesArray := citiesArray s;
                 selectedArray := selectedArray s |}
              eq_refl) as [_ [_ [Hsel Hdrag]]].
  unfold run in Hsel, Hdrag. simpl in Hsel, Hdrag. auto.
Qed.

(** Pointer events on the container leave the selection and the numbering
    of the node arrays alone. *)
Lemma pointer_events_keep_selection (events : list Event) (s : AppState) :
  Forall isPointerEvent events ->
  let s' := run round filtered s events in
  selectedCity s' = selectedCity s
  /\ citiesArray s' = citiesArray s
  /\ selectedArray s' = selectedArray s.
Proof.
  intros Hall. revert s. induction Hall as [| e events He _ IH]; intros s.
  - cbn. auto.
  - destruct (IH (step round filtered s e)) as [I1 [I2 I3]].
    unfold run in *. cbn [fold_left]. rewrite I1, I2, I3.
    destruct e; try contradiction; cbn [step].
    + unfold handleMouseDown. destruct (_ || _); cbn; auto.
    + unfold handleMouseMove. destruct (negb (isPanning s)); [auto |].
      destruct (negb (isDragging s) && _); [auto |].
      destruct container as [[width height] |]; cbn; auto.
    + cbn. auto.
    + cbn. auto.
Qed.

Lemma gesture_is_pointer_events (button : Z) (x0 y0 : Q)
    (moves : list (Q * Q * option (Q * Q))) :
  Forall isPointerEvent
    (MouseDown button x0 y0 :: map moveEvent moves ++ [MouseUp]).
Proof.
  constructor; [exact I |]. apply Forall_app. split.
  - apply Forall_forall. intros e He. apply in_map_iff in He.
    destruct He as [m [<- _]]. exact I.
  - constructor; [exact I | constructor].
Qed.

(** C5 (amended): over a city marker, a press with the primary or middle
    button, pointer moves, the release and the click leave the selection
    as it was when some move is at least 3 screen pixels (sum of the
    absolute horizontal and vertical differences, before any scaling) away
    from the press, and toggle the selection when every move stays below 3
    screen pixels: the selection is cleared when it holds the node object
    of the clicked marker, and otherwise becomes the clicked city with the
    filtered pairs that touch it. *)
Theorem click_after_drag_is_suppressed :
  forall (s : AppState) (button : Z) (x0 y0 : Q)
         (moves : list (Q * Q * option (Q * Q))) (city : CityNode),
    button = 0%Z \/ button = 1%Z ->
    let s' := run round filtered s (clickGesture button x0 y0 moves city) in
    ((exists m, In m moves
                /\ 3 <= pixelDisplacement (x0, y0) (fst (fst m)) (snd (fst m))) ->
     selectedCity s' = selectedCity s)
    /\ ((forall m, In m moves ->
                   pixelDisplacement (x0, y0) (fst (fst m)) (snd (fst m)) < 3) ->
        selectedCity s' = toggled filtered city s).
Proof.
  intros s button x0 y0 moves city Hb. cbv zeta.
  pose proof (gesture_before_click button x0 y0 moves s Hb) as Hbefore.
  cbv zeta in Hbefore. destruct Hbefore as [Hsel Hdrag].
  pose proof (pointer_events_keep_selection _ s
                (gesture_is_pointer_events button x0 y0 moves)) as Harr.
  cbv zeta in Harr. destruct Harr as [_ [Hcur Hfrom]].
  unfold clickGesture.
  replace (MouseDown button x0 y0 :: map moveEvent moves ++ [MouseUp; CityClick city])
    with ((MouseDown button x0 y0 :: map moveEvent moves ++ [MouseUp])
            ++ [CityClick city])
    by (simpl; rewrite <- app_assoc; reflexivity).
  unfold run in *. rewrite fold_left_app.
  set (s1 := fold_left (step round filtered)
               (MouseDown button x0 y0 :: map moveEvent moves ++ [MouseUp]) s) in *.
  cbn [fold_left step]. unfold handleCityClick. rewrite Hdrag. split.
  - intros [m [Hin Hm]].
    assert (E : existsb (reachesThreshold (x0, y0)) moves = true).
    { apply existsb_exists. exists m. split; [exact Hin |].
      apply reachesThreshold_spec, Hm. }
    rewrite E. exact Hsel.
  - intros Hall.
    assert (E : existsb (reachesThreshold (x0, y0)) moves = false).
    { destruct (existsb (reachesThreshold (x0, y0)) moves) eqn:E; [| reflexivity].
      apply existsb_exists in E. destruct E as [m [Hin Hm]].
      apply reachesThreshold_spec in Hm.
      exfalso. apply (Qlt_not_le _ _ (Hall m Hin) Hm). }
    rewrite E. unfold toggled, clickedIsSelected, sameObject, sameNode.
    rewrite Hsel, Hcur, Hfrom.
    destruct (selectedCity s) as [cur |]; [| reflexivity].
    destruct (Nat.eqb (selectedArray s) (citiesArray s)
              && (Qeq_bool (fst (coords (sel_city cur))) (fst (coords city))
                  && Qeq_bool (snd (coords (sel_city cur))) (snd (coords city))));
      reflexivity.
Qed.

End Gesture.

Lemma click_after_drag_is_suppressed_witness :
  selectedCity
    (run exact examplePairs initialState
       (clickGesture 0 100 100 [(110, 100, Some (960, 500))] nodeA))
  = selectedCity initialState
  /\ selectedCity
       (run exact examplePairs initialState
          (clickGesture 0 100 100 [(101, 101, Some (960, 500))] nodeA))
     = toggled examplePairs nodeA initialState.
Proof.
  split.
  - apply (click_after_drag_is_suppressed exact examplePairs initialState
             0%Z 100 100 [(110, 100, Some (960, 500))] nodeA).
    + left. reflexivity.
    + exists (110, 100, Some (960, 500)). split.
      * left. reflexivity.
      * vm_compute. discriminate.
  - apply (click_after_drag_is_suppressed exact examplePairs initialState
             0%Z 100 100 [(101, 101, Some (960, 500))] nodeA).
    + left. reflexivity.
    + intros m [<- | []]. vm_compute. reflexivity.
Defined.

(** C5, as stated, fails: the threshold is not measured in map units.  In a
    container rendered at 1920 by 1000 a move of 4 pixels is 2 map units,
    below the threshold, and yet the click does not toggle the selection; in
    a container rendered at 480 by 250 a move of 2 pixels is 4 map units,
    beyond the threshold, and yet the click toggles the selection. *)
Lemma drag_threshold_not_in_map_units :
  (scaledDisplacement (100, 100) 104 100 (1920, 1000) < 3
   /\ selectedCity
        (run exact examplePairs initialState
           (clickGesture 0 100 100 [(104, 100, Some (1920, 1000))] nodeA))
      = selectedCity initialState
   /\ toggled examplePairs nodeA initialState
      <> selectedCity initialState)
  /\ (3 < scaledDisplacement (100, 100) 102 100 (480, 250)
      /\ selectedCity
           (run exact examplePairs initialState
              (clickGesture 0 100 100 [(102, 100, Some (480, 250))] nodeA))
         = toggled examplePairs nodeA initialState
      /\ toggled examplePairs nodeA initialState
         <> selectedCity initialState).
Proof.
  split; (split; [vm_compute; reflexivity | split; [vm_compute; reflexivity |]]);
    simpl; discriminate.
Qed.

(** ** Label placement *)

Lemma placementPass_loop (mode : Mode) (labels : list Label) :
  placementPass mode labels = placeLoop (modeTag mode) 0 [] labels.
Proof. destruct mode; reflexivity. Qed.

(** The second tier of candidates is the first tier pushed one row away. *)
Lemma offsets_tiers (lw : Q) :
  offsets lw
  = [(7, -(8)); (7, 6); (- lw - 5, -(8)); (- lw - 5, 6)]
      ++ map pushAway [(7, -(8)); (7, 6); (- lw - 5, -(8)); (- lw - 5, 6)].
Proof. reflexivity. Qed.

(** Three labels on one dot: right-above, then left-above, then right and
    one row further up. *)
Example three_labels_positions :
  map (fun c => (Qred (labelX c), Qred (labelY c)))
      (fst (placementPass SelectionMode threeLabels))
  = [(107, 92); (151 # 2, 92); (107, 75)].
Proof. vm_compute. reflexivity. Qed.

(** The downward scan leaves its loop by its own bound: more fuel than
    [scanFuel] changes nothing. *)
Lemma scanDown_fuel (placedRects : list PlacedRect) (proj : Q * Q) (lw : Q)
    (extra : nat) :
  scanDown placedRects proj lw (scanFuel + extra) 0
  = scanDown placedRects proj lw scanFuel 0.
Proof.
  unfold scanFuel.
  do 12 (cbn [scanDown Nat.add];
         match goal with
         | |- context [Qltb ?a 200] =>
             replace (Qltb a 200) with true by (vm_compute; reflexivity)
         end;
         match goal with
         | |- context [overlaps ?p ?x ?y ?w] => destruct (overlaps p x y w)
         end; [| reflexivity]).
  cbn [scanDown]. destruct extra as [| extra]; [reflexivity |].
  cbn [scanDown].
  match goal with
  | |- context [Qltb ?a 200] =>
      replace (Qltb a 200) with false by (vm_compute; reflexivity)
  end.
  reflexivity.
Qed.

(** *** Positions found are free *)

Lemma tryOffsets_free (placedRects : list PlacedRect) (proj : Q * Q) (lw : Q)
    (offs : list (Q * Q)) (pos : Q * Q) :
  tryOffsets placedRects proj lw offs = Some pos ->
  overlaps placedRects (fst pos) (snd pos) lw = false.
Proof.
  induction offs as [| [ox oy] offs IH]; simpl; [discriminate |].
  destruct (overlaps placedRects (fst proj + ox) (snd proj + oy) lw) eqn:E.
  - exact IH.
  - intros H. injection H as <-. exact E.
Qed.

Lemma scanDown_free (placedRects : list PlacedRect) (proj : Q * Q) (lw : Q)
    (fuel : nat) (dy : Q) (pos : Q * Q) :
  scanDown placedRects proj lw fuel dy = Some pos ->
  overlaps placedRects (fst pos) (snd pos) lw = false.
Proof.
  revert dy. induction fuel as [| fuel IH]; intros dy; simpl; [discriminate |].
  destruct (Qltb dy 200); [| discriminate].
  destruct (overlaps placedRects (fst proj + 7) (snd proj + dy) lw) eqn:E.
  - apply IH.
  - intros H. injection H as <-. exact E.
Qed.

Lemma findSlot_free (placedRects : list PlacedRect) (c : Label) (pos : Q * Q) :
  findSlot placedRects c = Some pos ->
  overlaps placedRects (fst pos) (snd pos) (labelWidth c) = false.
Proof.
  unfold findSlot.
  destruct (tryOffsets placedRects (projected c) (labelWidth c)
              (offsets (labelWidth c))) as [p |] eqn:E.
  - intros H. injection H as <-. eapply tryOffsets_free, E.
  - apply scanDown_free.
Qed.

(** The candidate loop returns the first free candidate. *)
Lemma tryOffsets_first (placedRects : list PlacedRect) (proj : Q * Q) (lw : Q)
    (offs : list (Q * Q)) (k : nat) (off : Q * Q) :
  nth_error offs k = Some off ->
  overlaps placedRects (fst (candidateAt proj off)) (snd (candidateAt proj off)) lw
  = false ->
  (forall j off', (j < k)%nat -> nth_error offs j = Some off' ->
     overlaps placedRects (fst (candidateAt proj off'))
       (snd (candidateAt proj off')) lw = true) ->
  tryOffsets placedRects proj lw offs = Some (candidateAt proj off).
Proof.
  revert k. induction offs as [| [ox oy] offs IH]; intros k Hk Hfree Hbefore.
  - destruct k; discriminate.
  - destruct k as [| k]; simpl in *.
    + injection Hk as <-. unfold candidateAt in Hfree. simpl in Hfree.
      rewrite Hfree. reflexivity.
    + pose proof (Hbefore 0%nat (ox, oy) (Nat.lt_0_succ k) eq_refl) as H0.
      unfold candidateAt in H0. simpl in H0. rewrite H0.
      apply (IH k Hk Hfree).
      intros j off' Hj Hoff'. apply (Hbefore (S j) off'); [lia | exact Hoff'].
Qed.

(** *** The loop, label by label *)

Lemma placeLoop_app (tag : nat -> option nat) (l1 l2 : list Label) :
  forall (i : nat) (placedRects : list PlacedRect),
    placeLoop tag i placedRects (l1 ++ l2)
    = (fst (placeLoop tag i placedRects l1)
         ++ fst (placeLoop tag (i + List.length l1)
                   (snd (placeLoop tag i placedRects l1)) l2),
       snd (placeLoop tag (i + List.length l1)
              (snd (placeLoop tag i placedRects l1)) l2)).
Proof.
  induction l1 as [| c l1 IH]; intros i placedRects.
  - simpl. rewrite Nat.add_0_r.
    destruct (placeLoop tag i placedRects l2); reflexivity.
  - cbn [app placeLoop List.length]. rewrite IH.
    destruct (placeLoop tag (S i) _ l1) as [out1 final1] eqn:E1.
    cbn [fst snd]. rewrite <- Nat.add_succ_comm. reflexivity.
Qed.

Lemma placeLoop_length (tag : nat -> option nat) (labels : list Label) :
  forall (i : nat) (placedRects : list PlacedRect),
    List.length (fst (placeLoop tag i placedRects labels)) = List.length labels.
Proof.
  induction labels as [| c labels IH]; intros i placedRects; [reflexivity |].
  cbn [placeLoop].
  match goal with
  | |- context [placeLoop tag (S i) ?p labels] => specialize (IH (S i) p)
  end.
  destruct (placeLoop tag (S i) _ labels) as [out final] eqn:E.
  simpl in *. rewrite IH. reflexivity.
Qed.

(** The rectangles already placed are kept, in their order, at the front of
    the final [placedRects]. *)
Lemma placeLoop_rects (tag : nat -> option nat) (labels : list Label) :
  forall (i : nat) (placedRects : list PlacedRect),
    firstn (List.length placedRects) (snd (placeLoop tag i placedRects labels))
    = placedRects
    /\ List.length (snd (placeLoop tag i placedRects labels))
       = (List.length placedRects + List.length labels)%nat.
Proof.
  induction labels as [| c labels IH]; intros i placedRects.
  - simpl. rewrite firstn_all, Nat.add_0_r. auto.
  - cbn [placeLoop].
    set (r := {| rect_x := fst (placeLabel placedRects c);
                 rect_y := snd (placeLabel placedRects c);
                 rect_w := labelWidth c; rect_h := lh; rect_idx := tag i |}).
    destruct (IH (S i) (placedRects ++ [r])) as [Hfirst Hlen].
    destruct (placeLoop tag (S i) (placedRects ++ [r]) labels) as [out final] eqn:E.
    cbn [snd] in *. split.
    + apply (f_equal (firstn (List.length placedRects))) in Hfirst.
      rewrite firstn_firstn, length_app in Hfirst.
      rewrite Nat.min_l in Hfirst by lia.
      rewrite Hfirst, firstn_app, firstn_all, Nat.sub_diag. simpl.
      apply app_nil_r.
    + rewrite Hlen, length_app. simpl. lia.
Qed.

Lemma collides_paddedOverlap (cx cy lw : Q) (r : PlacedRect) :
  collides cx cy lw r = true <-> paddedOverlap cx cy lw 15 r.
Proof.
  unfold collides, paddedOverlap, Qgtb, lh, pad.
  rewrite !andb_true_iff, !Qltb_lt. tauto.
Qed.

Lemma overlaps_paddedOverlap (placedRects : list PlacedRect) (cx cy lw : Q) :
  overlaps placedRects cx cy lw = true
  <-> exists r, In r placedRects /\ paddedOverlap cx cy lw 15 r.
Proof.
  unfold overlaps. rewrite existsb_exists. split.
  - intros [r [Hin Hr]]. exists r. split; [exact Hin |].
    apply collides_paddedOverlap, Hr.
  - intros [r [Hin Hr]]. exists r. split; [exact Hin |].
    apply collides_paddedOverlap, Hr.
Qed.

Lemma overlaps_free (placedRects : list PlacedRect) (cx cy lw : Q) :
  (forall r, In r placedRects -> ~ paddedOverlap cx cy lw 15 r) ->
  overlaps placedRects cx cy lw = false.
Proof.
  intros Hfree. destruct (overlaps placedRects cx cy lw) eqn:E; [| reflexivity].
  apply overlaps_paddedOverlap in E. destruct E as [r [Hin Hr]].
  destruct (Hfree r Hin Hr).
Qed.

(** The label and the rectangle that the loop produces for the node after
    the nodes [pre], when the candidate loop finds the position [pos]. *)
Lemma placeLoop_at (tag : nat -> option nat) (pre post : list Label)
    (c : Label) (pos : Q * Q) :
  tryOffsets (snd (placeLoop tag 0 [] pre)) (projected c) (labelWidth c)
    (offsets (labelWidth c)) = Some pos ->
  nth_error (fst (placeLoop tag 0 [] (pre ++ c :: post))) (List.length pre)
  = Some (setLabelPos c pos)
  /\ nth_error (snd (placeLoop tag 0 [] (pre ++ c :: post))) (List.length pre)
     = Some {| rect_x := fst pos; rect_y := snd pos; rect_w := labelWidth c;
               rect_h := lh; rect_idx := tag (List.length pre) |}
  /\ firstn (List.length pre) (fst (placeLoop tag 0 [] (pre ++ c :: post)))
     = fst (placeLoop tag 0 [] pre)
  /\ firstn (List.length pre) (snd (placeLoop tag 0 [] (pre ++ c :: post)))
     = snd (placeLoop tag 0 [] pre).
Proof.
  intros Hpos.
  destruct (placeLoop_rects tag pre 0 []) as [_ Hlen]. simpl in Hlen.
  pose proof (placeLoop_length tag pre 0 []) as Hout.
  rewrite placeLoop_app. cbn [fst snd Nat.add].
  set (placed1 := snd (placeLoop tag 0 [] pre)) in *.
  set (out1 := fst (placeLoop tag 0 [] pre)) in *.
  assert (Hbest : placeLabel placed1 c = pos).
  { unfold placeLabel, findSlot. rewrite Hpos. reflexivity. }
  split; [| split; [| split]].
  - rewrite nth_error_app2 by lia. rewrite Hout, Nat.sub_diag.
    cbn [placeLoop].
    destruct (placeLoop tag (S (List.length pre)) _ post) as [out2 final2].
    cbn [fst nth_error]. rewrite Hbest. reflexivity.
  - pose proof (placeLoop_rects tag post (S (List.length pre))
                  (placed1 ++ [{| rect_x := fst pos; rect_y := snd pos;
                                  rect_w := labelWidth c; rect_h := lh;
                                  rect_idx := tag (List.length pre) |}]))
      as [Hfirst _].
    cbn [placeLoop]. rewrite Hbest.
    destruct (placeLoop tag (S (List.length pre)) _ post) as [out2 final2].
    cbn [snd] in *.
    apply (f_equal (fun l => nth_error l (List.length pre))) in Hfirst.
    rewrite nth_error_firstn in Hfirst.
    rewrite length_app, Hlen in Hfirst. cbn [List.length] in Hfirst.
    replace (List.length pre <? List.length pre + 1)%nat with true in Hfirst
      by (symmetry; apply Nat.ltb_lt; lia).
    rewrite Hfirst, nth_error_app2 by lia.
    rewrite Hlen, Nat.sub_diag. reflexivity.
  - rewrite firstn_app, <- Hout, firstn_all, Nat.sub_diag. simpl.
    apply app_nil_r.
  - pose proof (proj1 (placeLoop_rects tag (c :: post) (List.length pre) placed1))
      as Hkept.
    rewrite Hlen in Hkept. exact Hkept.
Qed.

(** C7: a node's dot is at ([px], [py]) and its label is [lw] wide, the
    name's length times 5.5 plus 14, and 15 high.  The eight candidate
    offsets are, in this order, right-above (7, -8), right-below (7, 6),
    left-above (-lw - 5, -8), left-below (-lw - 5, 6), and the same four one
    row further from the dot (-25 above, 23 below).  When the candidate of
    index [k] comes within the margin 2 of no rectangle placed for the
    earlier nodes of the pass and every candidate before it comes within the
    margin of one, the node's label is put at the candidate of index [k]:
    its [labelX] and [labelY] are the dot's coordinates plus the offset, and
    the rectangle recorded for it has that position, the width [lw] and the
    height 15.  The labels and rectangles of the earlier nodes are those of
    the pass over the earlier nodes alone. *)
Theorem first_free_candidate_is_chosen :
  forall (mode : Mode) (pre post : list Label) (c : Label) (k : nat)
         (ox oy : Q),
    let placedRects := snd (placementPass mode pre) in
    let px := fst (projected c) in
    let py := snd (projected c) in
    let lw := inject_Z (Z.of_nat (String.length (label_name c))) * (11 # 2) + 14 in
    let candidates :=
      [ (7, -(8)); (7, 6); (- lw - 5, -(8)); (- lw - 5, 6);
        (7, -(25)); (7, 23); (- lw - 5, -(25)); (- lw - 5, 23) ] in
    nth_error candidates k = Some (ox, oy) ->
    (forall r, In r placedRects ->
       ~ paddedOverlap (px + ox) (py + oy) lw 15 r) ->
    (forall j ox' oy', (j < k)%nat -> nth_error candidates j = Some (ox', oy') ->
       exists r, In r placedRects
                 /\ paddedOverlap (px + ox') (py + oy') lw 15 r) ->
    (exists c',
        nth_error (fst (placementPass mode (pre ++ c :: post))) (List.length pre)
        = Some c'
        /\ labelX c' = px + ox /\ labelY c' = py + oy
        /\ label_name c' = label_name c /\ projected c' = projected c)
    /\ (exists r,
          nth_error (snd (placementPass mode (pre ++ c :: post))) (List.length pre)
          = Some r
          /\ rect_x r = px + ox /\ rect_y r = py + oy
          /\ rect_w r = lw /\ rect_h r = 15)
    /\ firstn (List.length pre) (fst (placementPass mode (pre ++ c :: post)))
       = fst (placementPass mode pre)
    /\ firstn (List.length pre) (snd (placementPass mode (pre ++ c :: post)))
       = snd (placementPass mode pre).
Proof.
  intros mode pre post c k ox oy placedRects px py lw candidates
         Hk Hfree Hbefore.
  assert (Hpos : tryOffsets placedRects (projected c) (labelWidth c)
                   (offsets (labelWidth c))
                 = Some (candidateAt (projected c) (ox, oy))).
  { apply (tryOffsets_first placedRects (projected c) (labelWidth c)
             (offsets (labelWidth c)) k (ox, oy)).
    - exact Hk.
    - apply overlaps_free. exact Hfree.
    - intros j [ox' oy'] Hj Hoff'. apply overlaps_paddedOverlap.
      exact (Hbefore j ox' oy' Hj Hoff'). }
  subst placedRects. rewrite !placementPass_loop in *.
  destruct (placeLoop_at (modeTag mode) pre post c _ Hpos)
    as [Hlabel [Hrect [Hlabels Hrects]]].
  split; [| split; [| split]].
  - exists (setLabelPos c (candidateAt (projected c) (ox, oy))).
    split; [exact Hlabel |]. repeat split; reflexivity.
  - eexists. split; [exact Hrect |]. repeat split; reflexivity.
  - exact Hlabels.
  - exact Hrects.
Qed.

Lemma first_free_candidate_is_chosen_witness :
  exists c',
    nth_error (fst (placementPass SelectionMode threeLabels)) 1 = Some c'
    /\ labelX c' = 151 # 2 /\ labelY c' = 92
    /\ label_name c' = "B"%string /\ projected c' = (100, 100).
Proof.
  refine (proj1 (first_free_candidate_is_chosen SelectionMode
                    [pushLabel "A" "X" (100, 100)] [pushLabel "C" "Z" (100, 100)]
                    (pushLabel "B" "Y" (100, 100)) 2 (- (39 # 2) - 5) (-(8))
                    _ _ _)).
  - reflexivity.
  - intros r [<- | []] H. apply collides_paddedOverlap in H.
    vm_compute in H. discriminate.
  - intros j ox' oy' Hj Hoff'.
    destruct j as [| [| j]]; [| | lia]; simpl in Hoff';
      injection Hoff' as <- <-;
      (eexists; split; [left; reflexivity |]);
      apply collides_paddedOverlap; vm_compute; reflexivity.
Defined.

(** *** Collisions *)








(** A label that finds a free position is placed there, and its rectangle
    is clear of every rectangle placed before it, whatever happens to the
    other labels of the pass. *)
Lemma found_slot_is_clear (mode : Mode) (pre post : list Label) (c : Label)
    (pos : Q * Q) :
  findSlot (snd (placementPass mode pre)) c = Some pos ->
  exists r,
    nth_error (snd (placementPass mode (pre ++ c :: post))) (List.length pre)
    = Some r
    /\ rectGeometry r = (fst pos, snd pos, labelWidth c, lh)
    /\ (forall (i : nat) (ri : PlacedRect),
          (i < List.length pre)%nat ->
          nth_error (snd (placementPass mode (pre ++ c :: post))) i = Some ri ->
          rectsCollide r ri = false).
Proof.
  rewrite !placementPass_loop. set (tag := modeTag mode). intros Hslot.
  destruct (placeLoop_rects tag pre 0 []) as [_ Hlen]. simpl in Hlen.
  rewrite placeLoop_app. cbn [snd Nat.add].
  set (placed1 := snd (placeLoop tag 0 [] pre)) in *.
  cbn [placeLoop]. unfold placeLabel. rewrite Hslot.
  set (r := {| rect_x := fst pos; rect_y := snd pos; rect_w := labelWidth c;
               rect_h := lh; rect_idx := tag (List.length pre) |}).
  destruct (placeLoop_rects tag post (S (List.length pre)) (placed1 ++ [r]))
    as [Hfirst _].
  destruct (placeLoop tag (S (List.length pre)) (placed1 ++ [r]) post)
    as [out final].
  cbn [snd] in *.
  rewrite <- (firstn_skipn (List.length (placed1 ++ [r])) final), Hfirst.
  exists r. split; [| split].
  - rewrite <- app_assoc, nth_error_app2 by lia.
    rewrite Hlen, Nat.sub_diag. reflexivity.
  - reflexivity.
  - intros i ri Hi Hri.
    rewrite <- app_assoc, nth_error_app1 in Hri by lia.
    apply nth_error_In in Hri.
    pose proof (findSlot_free placed1 c pos Hslot) as Hfree.
    unfold overlaps in Hfree.
    destruct (rectsCollide r ri) eqn:E; [| reflexivity].
    assert (Hex : existsb (collides (fst pos) (snd pos) (labelWidth c)) placed1
                  = true).
    { apply existsb_exists. exists ri. split; [exact Hri | exact E]. }
    congruence.
Qed.




(** ** Node builder: further properties *)

(** X1: the number of cities that the modal reports for a pair list is the
    size of the node map built from the same list: the set of keys and the
    map grow in step. *)
Theorem totalCities_is_map_size :
  forall pairs : list CityPair,
    totalCities pairs = List.length (cityMap pairs)
    /\ totalCities pairs = List.length (cities pairs).
Proof.
  intros pairs.
  assert (H : totalCities pairs = List.length (cityMap pairs)).
  { unfold totalCities, cityMap.
    rewrite <- (length_map fst (fold_left addPair pairs [])), keys_fold.
    reflexivity. }
  split; [exact H |]. unfold cities. rewrite length_map. exact H.
Qed.

Lemma countIf_le {A : Type} (f : A -> bool) (l : list A) :
  (countIf f l <= List.length l)%nat.
Proof.
  induction l as [| a l IH]; [apply Nat.le_refl |].
  rewrite countIf_cons. simpl. destruct (f a); simpl; lia.
Qed.

Lemma isEndpoint_count (k : Key) (ps : list CityPair) :
  isEndpoint k ps = true -> (1 <= endpointCount k ps)%nat.
Proof.
  unfold isEndpoint, endpointCount.
  induction ps as [| p ps IH]; simpl; [discriminate |].
  rewrite !countIf_cons. intros H. apply orb_true_iff in H.
  destruct H as [H | H].
  - destruct (key_eqb (key1 p) k), (key_eqb (key2 p) k); simpl in *;
      try discriminate; lia.
  - specialize (IH H). lia.
Qed.

Lemma cities_In_map (ps : list CityPair) (c : CityNode) :
  In c (cities ps) -> In (nodeKey c, c) (cityMap ps).
Proof.
  unfold cities. intros Hin. apply in_map_iff in Hin.
  destruct Hin as [[k c'] [Hc Hin]]. simpl in Hc. subst c'.
  rewrite (wfMap_nodeKey _ k c (wfMap_cityMap ps) Hin). exact Hin.
Qed.

Lemma length_le_total (nodes : list CityNode) :
  (forall c, In c nodes -> (1 <= connections c)%nat) ->
  (List.length nodes <= totalConnections nodes)%nat.
Proof.
  induction nodes as [| c nodes IH]; intros H; simpl; [lia |].
  pose proof (H c (or_introl eq_refl)).
  assert (List.length nodes <= totalConnections nodes)%nat.
  { apply IH. intros c' Hc'. apply H. right. exact Hc'. }
  unfold totalConnections in *. simpl. lia.
Qed.

Lemma cities_connections_pos (ps : list CityPair) (c : CityNode) :
  In c (cities ps) -> (1 <= connections c)%nat.
Proof.
  intros Hin. rewrite (cities_node_count ps c Hin).
  apply isEndpoint_count. rewrite <- map_has_cityMap.
  apply (map_has_In (cityMap ps) (nodeKey c) c), cities_In_map, Hin.
Qed.

(** X2: the builder makes at most two nodes per pair, and every node it
    makes has at least one connection and at most two per pair. *)
Theorem node_count_bounds :
  forall ps : list CityPair,
    (List.length (cities ps) <= 2 * List.length ps)%nat
    /\ (forall c, In c (cities ps) ->
          (1 <= connections c <= 2 * List.length ps)%nat).
Proof.
  intros ps. split.
  - pose proof (length_le_total (cities ps) (cities_connections_pos ps)) as H.
    unfold cities, cityMap in *.
    fold (mapTotal (fold_left addPair ps [])) in H.
    rewrite mapTotal_fold in H. simpl in H. lia.
  - intros c Hin. split; [apply (cities_connections_pos ps c Hin) |].
    rewrite (cities_node_count ps c Hin). unfold endpointCount.
    pose proof (countIf_le (fun p => key_eqb (key1 p) (nodeKey c)) ps).
    pose proof (countIf_le (fun p => key_eqb (key2 p) (nodeKey c)) ps).
    lia.
Qed.

Lemma node_count_bounds_witness :
  In nodeA (cities examplePairs)
  /\ (1 <= connections nodeA <= 2 * List.length examplePairs)%nat.
Proof.
  assert (Hin : In nodeA (cities examplePairs)) by (left; reflexivity).
  split; [exact Hin |].
  exact (proj2 (node_count_bounds examplePairs) nodeA Hin).
Defined.

Lemma sameNode_keys (a b : CityNode) :
  sameNode a b = key_eqb (nodeKey a) (nodeKey b).
Proof. unfold sameNode, key_eqb, nodeKey. simpl. apply andb_comm. Qed.

(** X3: a node of the built list is found again in the map under the key of
    its own coordinates, and two nodes of the list with equal coordinates
    are one and the same node. *)
Theorem node_lookup_and_uniqueness :
  forall (ps : list CityPair) (c : CityNode),
    In c (cities ps) ->
    map_get (cityMap ps) (nodeKey c) = Some c
    /\ (forall c', In c' (cities ps) -> sameNode c c' = true -> c = c').
Proof.
  intros ps c Hin.
  assert (Hget : forall d, In d (cities ps) ->
                           map_get (cityMap ps) (nodeKey d) = Some d).
  { intros d Hd. apply map_get_In; [apply wfMap_cityMap |].
    apply cities_In_map, Hd. }
  split; [apply Hget, Hin |].
  intros c' Hin' Hsame. rewrite sameNode_keys in Hsame.
  pose proof (Hget c Hin) as H1. pose proof (Hget c' Hin') as H2.
  rewrite (map_get_compat _ _ _ Hsame) in H1. congruence.
Qed.

Lemma node_lookup_and_uniqueness_witness :
  In nodeA (cities examplePairs)
  /\ map_get (cityMap examplePairs) (nodeKey nodeA) = Some nodeA.
Proof.
  assert (Hin : In nodeA (cities examplePairs)) by (left; reflexivity).
  split; [exact Hin |].
  exact (proj1 (node_lookup_and_uniqueness examplePairs nodeA Hin)).
Defined.

(** X4: for a node of the built list, [findPairsForCity] returns at least
    one pair; the number of pairs lies between half the connection count and
    the connection count; and every pair returned is a filtered pair with
    the node at one end. *)
Theorem found_pairs_bounds :
  forall (filtered : list CityPair) (c : CityNode),
    In c (cities filtered) ->
    let found := findPairsForCity filtered c in
    (1 <= List.length found)%nat
    /\ (List.length found <= connections c <= 2 * List.length found)%nat
    /\ (forall p, In p found -> In p filtered /\ touchesCity c p = true).
Proof.
  intros filtered c Hin found. subst found.
  pose proof (cities_node_count filtered c Hin) as Hc.
  pose proof (cities_connections_pos filtered c Hin) as Hpos.
  unfold endpointCount in Hc.
  rewrite <- countIf_or_and in Hc.
  rewrite (countIf_ext _ (touchesCity c) filtered) in Hc
    by (intros p; symmetry; apply touchesCity_keys).
  assert (Hle : (countIf (fun a => key_eqb (key1 a) (nodeKey c)
                                   && key_eqb (key2 a) (nodeKey c)) filtered
                 <= countIf (touchesCity c) filtered)%nat).
  { clear. induction filtered as [| p ps IH]; [apply Nat.le_refl |].
    rewrite !countIf_cons, touchesCity_keys.
    destruct (key_eqb (key1 p) (nodeKey c)), (key_eqb (key2 p) (nodeKey c));
      simpl; lia. }
  unfold findPairsForCity. fold (countIf (touchesCity c) filtered).
  split; [lia |]. split; [lia |].
  intros p Hp. apply filter_In in Hp. exact Hp.
Qed.

Lemma found_pairs_bounds_witness :
  In nodeA (cities examplePairs)
  /\ (1 <= List.length (findPairsForCity examplePairs nodeA))%nat.
Proof.
  assert (Hin : In nodeA (cities examplePairs)) by (left; reflexivity).
  split; [exact Hin |].
  exact (proj1 (found_pairs_bounds examplePairs nodeA Hin)).
Defined.

(** ** Pair store: further properties *)

Lemma truthy_false_iff (v : JsValue) : truthy v = false <-> isFalsy v.
Proof.
  unfold isFalsy. destruct v as [[q | | |] | s | b | |]; simpl.
  - rewrite negb_false_iff, Qeq_bool_iff. split.
    + intros H. do 5 right. exists q. auto.
    + intros [H | [H | [H | [H | [H | [q' [H Hq]]]]]]]; try discriminate.
      injection H as ->. exact Hq.
  - split; [auto | reflexivity].
  - split; [discriminate |].
    intros [H | [H | [H | [H | [H | [q' [H Hq]]]]]]]; discriminate.
  - split; [discriminate |].
    intros [H | [H | [H | [H | [H | [q' [H Hq]]]]]]]; discriminate.
  - rewrite negb_false_iff. split.
    + intros H. apply String.eqb_eq in H. subst s. auto 6.
    + intros [H | [H | [H | [H | [H | [q' [H Hq]]]]]]]; try discriminate.
      injection H as ->. reflexivity.
  - split.
    + intros ->. auto 6.
    + intros [H | [H | [H | [H | [H | [q' [H Hq]]]]]]]; try discriminate.
      injection H as ->. reflexivity.
  - split; [auto | reflexivity].
  - split; [auto | reflexivity].
Qed.

(** X5: a parsed row is loaded exactly when none of its four coordinate
    fields is falsy, that is, none of them is null, undefined, NaN, false,
    the empty string or the number zero; the loaded rows keep the order of
    the file. *)
Theorem load_filter_exact :
  forall (data : list RawRow) (p : RawRow),
    (In p (setPairs data)
     <-> In p data /\ (forall v, In v (coordFields p) -> ~ isFalsy v))
    /\ (forall before after : list RawRow,
          setPairs (before ++ after) = setPairs before ++ setPairs after).
Proof.
  intros data p. split.
  - rewrite setPairs_In, hasCoords_all_truthy, forallb_forall.
    split; intros [Hin H]; (split; [exact Hin |]); intros v Hv.
    + rewrite <- truthy_false_iff, (H v Hv). discriminate.
    + specialize (H v Hv). rewrite <- truthy_false_iff in H.
      destruct (truthy v); [reflexivity | contradiction H; reflexivity].
  - intros before after. unfold setPairs. apply filter_app.
Qed.

Lemma string_app_assoc (a b c : string) :
  ((a ++ b) ++ c)%string = (a ++ b ++ c)%string.
Proof.
  induction a as [| x a IH]; simpl; [reflexivity | rewrite IH; reflexivity].
Qed.

Lemma isSubstring_trans (a b c : string) :
  isSubstring a b -> isSubstring b c -> isSubstring a c.
Proof.
  intros [pre1 [post1 H1]] [pre2 [post2 H2]].
  exists (pre2 ++ pre1)%string, (post1 ++ post2)%string.
  rewrite H2, H1, !string_app_assoc. reflexivity.
Qed.

Section SearchNarrowing.

Variable toLowerCase : string -> string.

(** X6: every pair the search filter returns is a loaded pair, and a term
    whose lower-cased form contains the lower-cased form of another term
    returns no pair that the other term does not return: typing on narrows
    the result. *)
Theorem search_narrows :
  forall (pairs : list CityPair) (short long : string),
    incl (filteredPairs toLowerCase pairs long) pairs
    /\ (long <> EmptyString ->
        isSubstring (toLowerCase short) (toLowerCase long) ->
        incl (filteredPairs toLowerCase pairs long)
             (filteredPairs toLowerCase pairs short)).
Proof.
  intros pairs short long.
  assert (Hsub : forall term, incl (filteredPairs toLowerCase pairs term) pairs).
  { intros term p Hp. unfold filteredPairs in Hp.
    destruct (String.eqb term EmptyString); [exact Hp |].
    apply filter_In in Hp. apply Hp. }
  split; [apply Hsub |].
  intros Hlong Hocc p Hp.
  destruct (String.eqb_spec short EmptyString) as [-> | Hshort].
  - change (filteredPairs toLowerCase pairs EmptyString) with pairs.
    apply (Hsub long p Hp).
  - rewrite (filteredPairs_filter toLowerCase pairs long Hlong) in Hp.
    rewrite (filteredPairs_filter toLowerCase pairs short Hshort).
    apply filter_In in Hp. destruct Hp as [Hin Hm]. apply filter_In.
    split; [exact Hin |].
    apply matchesSearch_spec. apply matchesSearch_spec in Hm.
    unfold termOccurs in *.
    destruct Hm as [H | [H | [H | H]]];
      [left | right; left | right; right; left | right; right; right];
      apply (isSubstring_trans _ _ _ Hocc H).
Qed.

End SearchNarrowing.

Lemma search_narrows_witness :
  incl (filteredPairs asciiToLowerCase [pairAB; pairAC] "X")
       (filteredPairs asciiToLowerCase [pairAB; pairAC] "x").
Proof.
  apply (search_narrows asciiToLowerCase [pairAB; pairAC] "x" "X").
  - discriminate.
  - exists EmptyString, EmptyString. reflexivity.
Defined.

(** ** Twins and the tooltip *)

(** X7: for a pair that touches a city, the city sits at one end of the pair
    and the twin that labels and tooltip show is the other end: when the
    first end has the coordinates of the city the twin is the second end,
    and otherwise the city is at the second end and the twin is the first. *)
Theorem twin_is_other_endpoint :
  forall (city : CityNode) (p : CityPair),
    touchesCity city p = true ->
    (sameCoords (coords city) (lng1 p, lat1 p)
     /\ twinCoords city p = (lng2 p, lat2 p)
     /\ twinName city p = city2 p
     /\ twinCountry city p = orEmpty (country2 p))
    \/ (sameCoords (coords city) (lng2 p, lat2 p)
        /\ twinCoords city p = (lng1 p, lat1 p)
        /\ twinName city p = city1 p
        /\ twinCountry city p = orEmpty (country1 p)).
Proof.
  intros city p Htouch. unfold touchesCity in Htouch.
  unfold twinCoords, twinName, twinCountry, sameCoords.
  fold (isCity1 city p) in Htouch.
  destruct (isCity1 city p) eqn:E1.
  - left. unfold isCity1 in E1. apply andb_true_iff in E1.
    rewrite !Qeq_bool_iff in E1. destruct E1 as [Ha Hb]. simpl.
    repeat split; symmetry; assumption.
  - right. simpl in Htouch. apply andb_true_iff in Htouch.
    rewrite !Qeq_bool_iff in Htouch. destruct Htouch as [Ha Hb]. simpl.
    repeat split; symmetry; assumption.
Qed.

Lemma twin_is_other_endpoint_witness :
  twinName nodeA pairAB = city2 pairAB \/ twinName nodeA pairAB = city1 pairAB.
Proof.
  destruct (twin_is_other_endpoint nodeA pairAB eq_refl)
    as [[_ [_ [H _]]] | [_ [_ [H _]]]]; [left | right]; exact H.
Defined.

(** X8: the tooltip shows a row for each of the first eight pairs, and the
    line "+N more" appears exactly when there are more than eight pairs,
    with N the number of pairs left out: rows and N together account for
    every pair. *)
Theorem tooltip_accounts_for_all_pairs :
  forall (city : CityNode) (pairs : list CityPair),
    (List.length (tooltipRows city pairs) <= 8)%nat
    /\ (List.length (tooltipRows city pairs)
        + match tooltipMore pairs with Some n => n | None => 0 end
        = List.length pairs)%nat
    /\ (tooltipMore pairs = None <-> (List.length pairs <= 8)%nat)
    /\ (forall n, tooltipMore pairs = Some n -> (1 <= n)%nat).
Proof.
  intros city pairs. unfold tooltipRows, tooltipMore.
  rewrite length_map, length_firstn.
  destruct (Nat.ltb_spec 8 (List.length pairs)) as [H | H].
  - split; [lia |]. split; [lia |]. split.
    + split; [discriminate | lia].
    + intros n Hn. injection Hn as <-. lia.
  - split; [lia |]. split; [lia |]. split.
    + split; [intros _; exact H | reflexivity].
    + discriminate.
Qed.

(** ** Markers *)

(** X9: without a search the markers are the built nodes with at least
    three connections, each of them a city with at least two pairs; with a
    search every built node gets a marker. *)
Theorem default_markers_have_three_connections :
  forall (ps : list CityPair) (c : CityNode),
    (In c (visibleMarkers false (cities ps))
     <-> In c (cities ps) /\ (3 <= endpointCount (nodeKey c) ps)%nat)
    /\ (In c (visibleMarkers false (cities ps)) ->
        (2 <= List.length (findPairsForCity ps c))%nat)
    /\ visibleMarkers true (cities ps) = cities ps.
Proof.
  intros ps c.
  assert (Hiff : In c (visibleMarkers false (cities ps))
                 <-> In c (cities ps) /\ (3 <= endpointCount (nodeKey c) ps)%nat).
  { unfold visibleMarkers. rewrite filter_In. split; intros [Hin H].
    - split; [exact Hin |]. rewrite <- (cities_node_count ps c Hin).
      apply Nat.leb_le, H.
    - split; [exact Hin |]. rewrite <- (cities_node_count ps c Hin) in H.
      apply Nat.leb_le, H. }
  split; [exact Hiff |]. split; [| reflexivity].
  intros Hvis. apply Hiff in Hvis. destruct Hvis as [Hin H3].
  rewrite <- (cities_node_count ps c Hin) in H3.
  pose proof (cities_node_count ps c Hin) as Hc.
  unfold endpointCount in Hc. rewrite <- countIf_or_and in Hc.
  rewrite (countIf_ext _ (touchesCity c) ps) in Hc
    by (intros p; symmetry; apply touchesCity_keys).
  assert (Hle : (countIf (fun a => key_eqb (key1 a) (nodeKey c)
                                   && key_eqb (key2 a) (nodeKey c)) ps
                 <= countIf (touchesCity c) ps)%nat).
  { clear. induction ps as [| p ps IH]; [apply Nat.le_refl |].
    rewrite !countIf_cons, touchesCity_keys.
    destruct (key_eqb (key1 p) (nodeKey c)), (key_eqb (key2 p) (nodeKey c));
      simpl; lia. }
  unfold findPairsForCity. fold (countIf (touchesCity c) ps). lia.
Qed.

Lemma inject_nat_nonneg (n : nat) : 0 <= inject_Z (Z.of_nat n).
Proof. unfold Qle. simpl. lia. Qed.

Lemma inject_nat_le (n m : nat) :
  (n <= m)%nat -> inject_Z (Z.of_nat n) <= inject_Z (Z.of_nat m).
Proof. intros H. unfold Qle. simpl. lia. Qed.

Lemma Math_min_left (a b : Q) : Math_min a b <= a.
Proof.
  unfold Math_min. destruct (Qle_bool a b) eqn:E; [apply Qle_refl |].
  destruct (Qlt_le_dec b a) as [H | H]; [apply Qlt_le_weak, H |].
  apply Qle_bool_iff in H. congruence.
Qed.

Lemma Math_min_monotone (a a' b : Q) :
  a <= a' -> Math_min a b <= Math_min a' b.
Proof.
  intros H. apply Math_min_lower.
  - apply Qle_trans with a; [apply Math_min_left | exact H].
  - apply Math_min_upper.
Qed.

(** X10: the radius of a marker lies between 1 and 5; the selected marker
    has radius 5, a hovered one 4, every other at most 3, and one dimmed
    because it is not connected to the selection at most 1.5; the radius
    never shrinks when the connection count grows. *)
Theorem marker_radius_bounds :
  forall (isSelected isHovered hasSel isConnected : bool) (n m : nat),
    let r := markerRadius isSelected isHovered hasSel isConnected n in
    1 <= r /\ r <= 5
    /\ (isSelected = true -> r = 5)
    /\ (isSelected = false -> isHovered = true -> r = 4)
    /\ (isSelected = false -> isHovered = false -> r <= 3)
    /\ (isSelected = false -> isHovered = false ->
        hasSel = true -> isConnected = false -> r <= 15 # 10)
    /\ ((n <= m)%nat ->
        r <= markerRadius isSelected isHovered hasSel isConnected m).
Proof.
  intros isSelected isHovered hasSel isConnected n m r. subst r.
  pose proof (inject_nat_nonneg n) as Hn.
  assert (Hdim : 1 <= Math_min (1 + inject_Z (Z.of_nat n) * (5 # 100)) (15 # 10)).
  { apply Math_min_lower; [lra | discriminate]. }
  assert (Hnorm : 1 <= Math_min (1 + inject_Z (Z.of_nat n) * (15 # 100)) 3).
  { apply Math_min_lower; [lra | discriminate]. }
  pose proof (Math_min_upper (1 + inject_Z (Z.of_nat n) * (5 # 100)) (15 # 10)) as Hd2.
  pose proof (Math_min_upper (1 + inject_Z (Z.of_nat n) * (15 # 100)) 3) as Hn2.
  unfold markerRadius.
  destruct isSelected, isHovered, hasSel, isConnected; cbn [andb negb];
    repeat split; intros;
    try reflexivity; try discriminate; try assumption; try lra;
    try apply Qle_refl;
    apply Math_min_monotone;
    match goal with
    | H : (n <= m)%nat |- _ => pose proof (inject_nat_le n m H)
    end; lra.
Qed.

(** ** Path aggregation *)

Section PathProperties.

Variable projection : Q * Q -> option (Q * Q).
Variable showNumber : Q -> string.

Lemma pathSegments_acc (ps : list CityPair) (acc : list string) :
  fold_left (pushSegment projection showNumber) ps acc
  = acc ++ pathSegments projection showNumber ps.
Proof.
  unfold pathSegments. revert acc.
  induction ps as [| p ps IH]; intros acc; simpl.
  - rewrite app_nil_r. reflexivity.
  - rewrite IH, (IH (pushSegment projection showNumber [] p)).
    rewrite app_assoc. f_equal. unfold pushSegment.
    destruct (projection (lng1 p, lat1 p)), (projection (lng2 p, lat2 p));
      rewrite ?app_nil_r; reflexivity.
Qed.

Lemma pathSegments_cons (p : CityPair) (ps : list CityPair) :
  pathSegments projection showNumber (p :: ps)
  = pushSegment projection showNumber [] p
      ++ pathSegments projection showNumber ps.
Proof. unfold pathSegments at 1. simpl. apply pathSegments_acc. Qed.

Lemma pathSegments_app (ps qs : list CityPair) :
  pathSegments projection showNumber (ps ++ qs)
  = pathSegments projection showNumber ps
      ++ pathSegments projection showNumber qs.
Proof.
  unfold pathSegments at 1. rewrite fold_left_app.
  fold (pathSegments projection showNumber ps). apply pathSegments_acc.
Qed.

Lemma joinSegments_app (a b : list string) :
  joinSegments (a ++ b) = (joinSegments a ++ joinSegments b)%string.
Proof.
  induction a as [| s a IH]; simpl; [reflexivity |].
  rewrite IH, string_app_assoc. reflexivity.
Qed.

Lemma pathSegments_In (ps : list CityPair) (seg : string) :
  In seg (pathSegments projection showNumber ps)
  <-> exists p from to,
        In p ps /\ projection (lng1 p, lat1 p) = Some from
        /\ projection (lng2 p, lat2 p) = Some to
        /\ seg = segment showNumber from to.
Proof.
  induction ps as [| p ps IH].
  - simpl. split; [contradiction | intros [p [from [to [[] _]]]]].
  - rewrite pathSegments_cons, in_app_iff, IH. unfold pushSegment. split.
    + intros [H | [q [from [to [Hq H]]]]].
      * destruct (projection (lng1 p, lat1 p)) as [from |] eqn:E1;
          [| contradiction].
        destruct (projection (lng2 p, lat2 p)) as [to |] eqn:E2;
          [| contradiction].
        destruct H as [<- | []]. exists p, from, to. simpl. auto.
      * exists q, from, to. simpl. tauto.
    + intros [q [from [to [[<- | Hq] [H1 [H2 ->]]]]]].
      * left. rewrite H1, H2. left. reflexivity.
      * right. exists q, from, to. auto.
Qed.

Lemma pathSegments_length (ps : list CityPair) :
  List.length (pathSegments projection showNumber ps)
  = countIf (projects projection) ps.
Proof.
  induction ps as [| p ps IH]; [reflexivity |].
  rewrite pathSegments_cons, length_app, IH, countIf_cons.
  unfold pushSegment, projects.
  destruct (projection (lng1 p, lat1 p)), (projection (lng2 p, lat2 p));
    reflexivity.
Qed.

(** X11: the path of a pair list is the path of its front part followed by
    the path of its rest; a pair with an endpoint that has no projection
    adds nothing to it; and it has one segment for each pair both of whose
    endpoints project. *)
Theorem linesPath_composition :
  forall ps qs : list CityPair,
    linesPath projection showNumber (ps ++ qs)
    = (linesPath projection showNumber ps
       ++ linesPath projection showNumber qs)%string
    /\ (forall p, projects projection p = false ->
          linesPath projection showNumber (p :: qs)
          = linesPath projection showNumber qs)
    /\ List.length (pathSegments projection showNumber ps)
       = countIf (projects projection) ps.
Proof.
  intros ps qs. unfold linesPath. split; [| split].
  - rewrite pathSegments_app. apply joinSegments_app.
  - intros p Hp. rewrite pathSegments_cons. unfold pushSegment.
    unfold projects in Hp.
    destruct (projection (lng1 p, lat1 p)), (projection (lng2 p, lat2 p));
      try discriminate; reflexivity.
  - apply pathSegments_length.
Qed.

Lemma pathSegments_incl (ps qs : list CityPair) :
  incl ps qs ->
  incl (pathSegments projection showNumber ps)
       (pathSegments projection showNumber qs).
Proof.
  intros H seg Hseg. apply pathSegments_In in Hseg.
  destruct Hseg as [p [from [to [Hp Hrest]]]].
  apply pathSegments_In. exists p, from, to. split; [apply H, Hp | exact Hrest].
Qed.

(** X12: the segments highlighted for a city, the pairs being those that
    [findPairsForCity] finds among the filtered pairs, are all segments of
    the base path of the filtered pairs, and there are no more of them. *)
Theorem highlighted_segments_in_base_path :
  forall (filtered : list CityPair) (city : CityNode),
    incl (pathSegments projection showNumber (findPairsForCity filtered city))
         (pathSegments projection showNumber filtered)
    /\ (List.length
          (pathSegments projection showNumber (findPairsForCity filtered city))
        <= List.length (pathSegments projection showNumber filtered))%nat
    /\ selectedPath projection showNumber
         (Some {| sel_city := city;
                  sel_pairs := findPairsForCity filtered city |})
       = linesPath projection showNumber (findPairsForCity filtered city).
Proof.
  intros filtered city. split; [| split; [| reflexivity]].
  - apply pathSegments_incl. intros p Hp. apply filter_In in Hp. apply Hp.
  - rewrite !pathSegments_length. unfold findPairsForCity, countIf.
    induction filtered as [| p ps IH]; [apply Nat.le_refl |].
    simpl. destruct (touchesCity city p); simpl;
      destruct (projects projection p); simpl; lia.
Qed.

End PathProperties.

(** ** Label placement: further properties *)

Lemma placeLoop_fields (tag : nat -> option nat) (labels : list Label) :
  forall (i : nat) (placedRects : list PlacedRect),
    map (fun c => (label_name c, label_country c, projected c))
        (fst (placeLoop tag i placedRects labels))
    = map (fun c => (label_name c, label_country c, projected c)) labels.
Proof.
  induction labels as [| c labels IH]; intros i placedRects; [reflexivity |].
  cbn [placeLoop].
  match goal with
  | |- context [placeLoop tag (S i) ?p labels] => specialize (IH (S i) p)
  end.
  destruct (placeLoop tag (S i) _ labels) as [out final].
  cbn [fst] in *. simpl. rewrite IH. reflexivity.
Qed.

(** X13: a placement pass returns as many labels as it was given, in the
    same order and with the same names, countries and projected points, and
    records one rectangle for each: the pass changes positions only. *)
Theorem pass_moves_labels_only :
  forall (mode : Mode) (labels : list Label),
    map (fun c => (label_name c, label_country c, projected c))
        (fst (placementPass mode labels))
    = map (fun c => (label_name c, label_country c, projected c)) labels
    /\ List.length (fst (placementPass mode labels)) = List.length labels
    /\ List.length (snd (placementPass mode labels)) = List.length labels.
Proof.
  intros mode labels. rewrite placementPass_loop. split; [| split].
  - apply placeLoop_fields.
  - apply placeLoop_length.
  - apply (proj2 (placeLoop_rects (modeTag mode) labels 0 [])).
Qed.

Lemma tryOffsets_firstFree (placedRects : list PlacedRect) (proj : Q * Q)
    (lw : Q) (offs : list (Q * Q)) :
  tryOffsets placedRects proj lw offs
  = firstFree placedRects lw (map (candidateAt proj) offs).
Proof.
  induction offs as [| [ox oy] offs IH]; simpl; [reflexivity |].
  rewrite IH. reflexivity.
Qed.

Lemma scanDy_in_bound (i : nat) :
  (i < scanFuel)%nat -> Qltb (scanDy i) 200 = true.
Proof.
  unfold scanFuel. intros H.
  do 12 (destruct i as [| i]; [vm_compute; reflexivity |]). lia.
Qed.

Lemma scanDown_firstFree_from (placedRects : list PlacedRect) (proj : Q * Q)
    (lw : Q) (fuel : nat) :
  forall i : nat,
    (i + fuel <= scanFuel)%nat ->
    scanDown placedRects proj lw fuel (scanDy i)
    = firstFree placedRects lw (map (scanSlot proj) (seq i fuel)).
Proof.
  induction fuel as [| fuel IH]; intros i Hi; [reflexivity |].
  cbn [scanDown seq map firstFree]. rewrite scanDy_in_bound by lia.
  unfold scanSlot at 1 2. cbn [fst snd].
  destruct (overlaps placedRects (fst proj + 7) (snd proj + scanDy i) lw);
    [| reflexivity].
  change (scanDy i + (lh + pad)) with (scanDy (S i)). apply IH. lia.
Qed.

Lemma firstFree_app (placedRects : list PlacedRect) (lw : Q)
    (a b : list (Q * Q)) :
  firstFree placedRects lw (a ++ b)
  = match firstFree placedRects lw a with
    | Some pos => Some pos
    | None => firstFree placedRects lw b
    end.
Proof.
  induction a as [| pos a IH]; simpl; [reflexivity |].
  destruct (overlaps placedRects (fst pos) (snd pos) lw); [exact IH | reflexivity].
Qed.

Lemma firstFree_None (placedRects : list PlacedRect) (lw : Q)
    (positions : list (Q * Q)) :
  firstFree placedRects lw positions = None
  <-> forall pos, In pos positions ->
        overlaps placedRects (fst pos) (snd pos) lw = true.
Proof.
  induction positions as [| pos positions IH]; simpl.
  - split; [intros _ pos [] | reflexivity].
  - destruct (overlaps placedRects (fst pos) (snd pos) lw) eqn:E.
    + rewrite IH. split.
      * intros H p [<- | Hp]; [exact E | apply H, Hp].
      * intros H p Hp. apply H. right. exact Hp.
    + split; [discriminate |]. intros H.
      rewrite (H pos (or_introl eq_refl)) in E. discriminate.
Qed.

Lemma firstFree_In (placedRects : list PlacedRect) (lw : Q)
    (positions : list (Q * Q)) (pos : Q * Q) :
  firstFree placedRects lw positions = Some pos -> In pos positions.
Proof.
  induction positions as [| p positions IH]; simpl; [discriminate |].
  destruct (overlaps placedRects (fst p) (snd p) lw).
  - intros H. right. apply IH, H.
  - intros H. injection H as <-. left. reflexivity.
Qed.

Lemma findSlot_firstFree (placedRects : list PlacedRect) (c : Label) :
  findSlot placedRects c
  = firstFree placedRects (labelWidth c) (slotPositions c).
Proof.
  unfold findSlot, slotPositions.
  rewrite firstFree_app, tryOffsets_firstFree.
  destruct (firstFree placedRects (labelWidth c)
              (map (candidateAt (projected c)) (offsets (labelWidth c))));
    [reflexivity |].
  apply (scanDown_firstFree_from placedRects (projected c) (labelWidth c)
           scanFuel 0). lia.
Qed.

(** X14: the two loops of the placement body together pick the first free
    position in a fixed list of twenty: the eight candidates, then the
    twelve positions of the downward scan (dy = 0, 17, ..., 187).  No
    position is found exactly when all twenty collide, and the scan stops by
    its own bound after twelve rounds, however many more it is allowed. *)
Theorem findSlot_first_of_twenty :
  forall (placedRects : list PlacedRect) (c : Label),
    findSlot placedRects c
    = firstFree placedRects (labelWidth c) (slotPositions c)
    /\ List.length (slotPositions c) = 20%nat
    /\ (findSlot placedRects c = None
        <-> forall pos, In pos (slotPositions c) ->
              overlaps placedRects (fst pos) (snd pos) (labelWidth c) = true)
    /\ (forall extra : nat,
          scanDown placedRects (projected c) (labelWidth c) (scanFuel + extra) 0
          = scanDown placedRects (projected c) (labelWidth c) scanFuel 0).
Proof.
  intros placedRects c.
  pose proof (findSlot_firstFree placedRects c) as H.
  split; [exact H |]. split; [reflexivity |]. split.
  - rewrite H. apply firstFree_None.
  - intros extra. apply scanDown_fuel.
Qed.

Lemma labelWidth_min (c : Label) : 14 <= labelWidth c.
Proof.
  unfold labelWidth.
  pose proof (inject_nat_nonneg (String.length (label_name c))). lra.
Qed.

Lemma scanDy_range (i : nat) :
  (i < scanFuel)%nat -> 0 <= scanDy i /\ scanDy i <= 187.
Proof.
  unfold scanFuel. intros H.
  do 12 (destruct i as [| i]; [split; vm_compute; discriminate |]). lia.
Qed.

(** Where a label built by [pushLabel] can end up, relative to its dot. *)
Lemma placeLabel_position (placedRects : list PlacedRect) (c : Label) :
  atDefault c ->
  let pos := placeLabel placedRects c in
  (fst pos == fst (projected c) + 7
   \/ fst pos == fst (projected c) - labelWidth c - 5)
  /\ (snd pos == snd (projected c) - 8
      \/ (snd (projected c) <= snd pos /\ snd pos <= snd (projected c) + 187)
      \/ snd pos == snd (projected c) - 25).
Proof.
  intros [Hx Hy] pos. subst pos. unfold placeLabel.
  rewrite (findSlot_firstFree placedRects c).
  destruct (firstFree placedRects (labelWidth c) (slotPositions c))
    as [pos |] eqn:E.
  - apply firstFree_In in E. unfold slotPositions in E.
    apply in_app_or in E. destruct E as [E | E].
    + unfold offsets, candidateAt, lh, pad in E. simpl in E.
      destruct E as [<- | [<- | [<- | [<- | [<- | [<- | [<- | [<- | []]]]]]]]];
        cbn [fst snd]; split;
        first [left; lra | right; lra | right; left; lra | right; right; lra].
    + apply in_map_iff in E. destruct E as [i [<- Hi]].
      apply in_seq in Hi. destruct (scanDy_range i) as [H0 H187]; [lia |].
      unfold scanSlot. cbn [fst snd].
      split; [left; lra | right; left; lra].
  - cbn [fst snd]. rewrite Hx, Hy. split; left; lra.
Qed.

Lemma placeLoop_out_In (tag : nat -> option nat) (labels : list Label) :
  forall (i : nat) (placedRects : list PlacedRect) (c' : Label),
    In c' (fst (placeLoop tag i placedRects labels)) ->
    exists c placed,
      In c labels /\ c' = setLabelPos c (placeLabel placed c).
Proof.
  induction labels as [| c labels IH]; intros i placedRects c' Hin.
  - contradiction.
  - cbn [placeLoop] in Hin.
    match type of Hin with
    | context [placeLoop tag (S i) ?p labels] => specialize (IH (S i) p c')
    end.
    destruct (placeLoop tag (S i) _ labels) as [out final].
    cbn [fst] in *. destruct Hin as [<- | Hin].
    + exists c, placedRects. split; [left; reflexivity | reflexivity].
    + destruct (IH Hin) as [c0 [placed [Hc0 E]]].
      exists c0, placed. split; [right; exact Hc0 | exact E].
Qed.

Lemma pass_label_position (mode : Mode) (labels : list Label) (c' : Label) :
  Forall atDefault labels ->
  In c' (fst (placementPass mode labels)) ->
  (labelX c' == fst (projected c') + 7
   \/ labelX c' == fst (projected c') - labelWidth c' - 5)
  /\ (labelY c' == snd (projected c') - 8
      \/ (snd (projected c') <= labelY c'
          /\ labelY c' <= snd (projected c') + 187)
      \/ labelY c' == snd (projected c') - 25).
Proof.
  intros Hdef Hin. rewrite placementPass_loop in Hin.
  apply placeLoop_out_In in Hin. destruct Hin as [c [placed [Hc ->]]].
  rewrite Forall_forall in Hdef.
  apply (placeLabel_position placed c (Hdef c Hc)).
Qed.

(** X15: in either pass over labels that start at their default positions,
    every label ends either 7 units right of its dot or with its right edge
    5 units left of the dot, and between 25 units above and 187 units below
    the dot: the bounded scan never sends a label further away. *)
Theorem label_stays_near_dot :
  forall (mode : Mode) (labels : list Label) (c' : Label),
    Forall atDefault labels ->
    In c' (fst (placementPass mode labels)) ->
    (labelX c' == fst (projected c') + 7
     \/ labelX c' + labelWidth c' == fst (projected c') - 5)
    /\ snd (projected c') - 25 <= labelY c'
    /\ labelY c' <= snd (projected c') + 187.
Proof.
  intros mode labels c' Hdef Hin.
  destruct (pass_label_position mode labels c' Hdef Hin)
    as [[Hx | Hx] [Hy | [[Hy1 Hy2] | Hy]]];
    (split; [first [left; lra | right; lra] | split; lra]).
Qed.

Lemma label_stays_near_dot_witness :
  Forall atDefault threeLabels
  /\ snd (projected (setLabelPos (pushLabel "A" "X" (100, 100)) (107, 92))) - 25
     <= labelY (setLabelPos (pushLabel "A" "X" (100, 100)) (107, 92)).
Proof.
  assert (Hdef : Forall atDefault threeLabels).
  { repeat constructor. }
  split; [exact Hdef |].
  apply (label_stays_near_dot SelectionMode threeLabels
           (setLabelPos (pushLabel "A" "X" (100, 100)) (107, 92)) Hdef).
  left. vm_compute. reflexivity.
Defined.

Lemma Qgtb_false_le (a b : Q) : Qgtb a b = false <-> a <= b.
Proof.
  unfold Qgtb, Qltb. rewrite negb_false_iff. apply Qle_bool_iff.
Qed.

(** X16: in either pass over labels that start at their default positions,
    the leader line from the dot to the label is drawn exactly for the
    labels that the pass has moved away from the default position. *)
Theorem leader_line_iff_moved :
  forall (mode : Mode) (labels : list Label) (c' : Label),
    Forall atDefault labels ->
    In c' (fst (placementPass mode labels)) ->
    (hasLeaderLine c' = false
     <-> labelX c' == fst (projected c') + 7
         /\ labelY c' == snd (projected c') - 8).
Proof.
  intros mode labels c' Hdef Hin.
  pose proof (pass_label_position mode labels c' Hdef Hin) as Hpos.
  pose proof (labelWidth_min c') as Hw.
  unfold hasLeaderLine. rewrite orb_false_iff, !Qgtb_false_le.
  rewrite !Qabs_Qle_condition.
  destruct Hpos as [[Hx | Hx] [Hy | [[Hy1 Hy2] | Hy]]]; split;
    intros [H1 H2]; try (split; lra); exfalso; lra.
Qed.

Lemma leader_line_iff_moved_witness :
  Forall atDefault threeLabels
  /\ (hasLeaderLine (setLabelPos (pushLabel "A" "X" (100, 100)) (107, 92)) = false
      <-> labelX (setLabelPos (pushLabel "A" "X" (100, 100)) (107, 92))
          == fst (projected (setLabelPos (pushLabel "A" "X" (100, 100)) (107, 92))) + 7
          /\ labelY (setLabelPos (pushLabel "A" "X" (100, 100)) (107, 92))
             == snd (projected (setLabelPos (pushLabel "A" "X" (100, 100)) (107, 92))) - 8).
Proof.
  assert (Hdef : Forall atDefault threeLabels).
  { repeat constructor. }
  split; [exact Hdef |].
  apply (leader_line_iff_moved SelectionMode threeLabels
           (setLabelPos (pushLabel "A" "X" (100, 100)) (107, 92)) Hdef).
  left. vm_compute. reflexivity.
Defined.

(** ** The label memos *)

Section LabelMemos.

Variable projection : Q * Q -> option (Q * Q).

Lemma allLabels_length (entries : list (option Label)) (labels : list Label) :
  allLabels entries = Some labels -> List.length labels = List.length entries.
Proof.
  revert labels. induction entries as [| [c |] entries IH]; intros labels; simpl.
  - intros H. injection H as <-. reflexivity.
  - destruct (allLabels entries) as [cs |]; [| discriminate].
    intros H. injection H as <-. simpl. rewrite (IH cs eq_refl). reflexivity.
  - discriminate.
Qed.

Lemma entryFor_length (nm : option string) (ctry : string) (pt : Q * Q) :
  (List.length (entryFor projection nm ctry pt) <= 1)%nat.
Proof. unfold entryFor. destruct (projection pt); simpl; lia. Qed.

Lemma connectedEntries_length (sel : Selection) :
  (List.length (connectedEntries projection sel)
   <= 1 + List.length (sel_pairs sel))%nat.
Proof.
  unfold connectedEntries. rewrite length_app.
  pose proof (entryFor_length (name (sel_city sel)) (country (sel_city sel))
                (coords (sel_city sel))) as H1.
  assert (H2 : forall ps,
             (List.length
                (flat_map
                   (fun p => entryFor projection (twinName (sel_city sel) p)
                               (twinCountry (sel_city sel) p)
                               (twinCoords (sel_city sel) p)) ps)
              <= List.length ps)%nat).
  { induction ps as [| p ps IH]; simpl; [lia |].
    rewrite length_app.
    pose proof (entryFor_length (twinName (sel_city sel) p)
                  (twinCountry (sel_city sel) p) (twinCoords (sel_city sel) p)).
    lia. }
  specialize (H2 (sel_pairs sel)). lia.
Qed.

(** X17: the two label layers are never both filled: with a selection the
    search memo returns no label, and without one the selection memo
    returns none; without a search term the search memo returns none
    either. *)
Theorem label_modes_exclusive :
  forall (selected : option Selection) (filteredNow : bool)
         (nodes : list CityNode),
    let hasSel := match selected with Some _ => true | None => false end in
    (hasSel = true -> searchLabelsMemo projection filteredNow nodes hasSel = Some [])
    /\ (hasSel = false -> selectedConnectedCitiesMemo projection selected = Some [])
    /\ (filteredNow = false ->
        searchLabelsMemo projection filteredNow nodes hasSel = Some [])
    /\ ~ (exists c1 l1 c2 l2,
            selectedConnectedCitiesMemo projection selected = Some (c1 :: l1)
            /\ searchLabelsMemo projection filteredNow nodes hasSel
               = Some (c2 :: l2)).
Proof.
  intros selected filteredNow nodes hasSel. subst hasSel.
  unfold searchLabelsMemo, selectedConnectedCitiesMemo.
  destruct selected as [sel |]; destruct filteredNow; cbn [negb orb];
    repeat split; try reflexivity; try discriminate;
    intros [c1 [l1 [c2 [l2 [H1 H2]]]]]; discriminate.
Qed.

Lemma allLabels_Some (entries : list (option Label)) (labels : list Label) :
  allLabels entries = Some labels <-> entries = map Some labels.
Proof.
  revert labels. induction entries as [| [c |] entries IH]; intros labels; simpl.
  - split.
    + intros H. injection H as <-. reflexivity.
    + destruct labels; [reflexivity | discriminate].
  - destruct (allLabels entries) as [cs |] eqn:E.
    + split.
      * intros H. injection H as <-. simpl. f_equal. apply IH. reflexivity.
      * destruct labels as [| d labels]; [discriminate |]. simpl.
        intros H. injection H as -> H. apply IH in H. congruence.
    + split; [discriminate |].
      destruct labels as [| d labels]; [discriminate |]. simpl.
      intros H. injection H as _ H. apply IH in H. discriminate.
  - split; [discriminate |]. destruct labels; discriminate.
Qed.

Lemma allLabels_None (entries : list (option Label)) :
  allLabels entries = None <-> In None entries.
Proof.
  induction entries as [| [c |] entries IH]; simpl.
  - split; [discriminate | contradiction].
  - destruct (allLabels entries) as [cs |].
    + split; [discriminate |]. intros [H | H]; [discriminate |].
      apply IH in H. discriminate.
    + split; [| reflexivity]. intros _. right. apply IH. reflexivity.
  - split; [intros _; left; reflexivity | reflexivity].
Qed.

(** X18: for a selected city that has a projection and a name, the
    selection memo throws exactly when some pair of the selection has a twin
    with a projection and no name (the pass reads the length of the name);
    otherwise it returns.  What it returns has the selected city first,
    under its own name and country, at its projected point and at the
    default position right of and above the dot, and holds at most one label
    more than the selection has pairs. *)
Theorem selected_city_label_first :
  forall (sel : Selection) (pr : Q * Q) (nm : string),
    projection (coords (sel_city sel)) = Some pr ->
    name (sel_city sel) = Some nm ->
    (selectedConnectedCitiesMemo projection (Some sel) = None
     <-> exists p, In p (sel_pairs sel)
                   /\ twinName (sel_city sel) p = None
                   /\ projection (twinCoords (sel_city sel) p) <> None)
    /\ (forall labels,
          selectedConnectedCitiesMemo projection (Some sel) = Some labels ->
          (exists rest,
              labels
              = {| label_name := nm; label_country := country (sel_city sel);
                   projected := pr; labelX := fst pr + 7; labelY := snd pr - 8 |}
                  :: rest)
          /\ (List.length labels <= 1 + List.length (sel_pairs sel))%nat)
    /\ ((forall p, In p (sel_pairs sel) ->
           projection (twinCoords (sel_city sel) p) <> None ->
           twinName (sel_city sel) p <> None) ->
        exists labels,
          selectedConnectedCitiesMemo projection (Some sel) = Some labels).
Proof.
  intros sel pr nm Hproj Hname.
  assert (Hthrows :
            selectedConnectedCitiesMemo projection (Some sel) = None
            <-> exists p, In p (sel_pairs sel)
                          /\ twinName (sel_city sel) p = None
                          /\ projection (twinCoords (sel_city sel) p) <> None).
  { unfold selectedConnectedCitiesMemo.
    destruct (allLabels (connectedEntries projection sel)) as [ls |] eqn:E.
    - split; [discriminate |].
      intros [p [Hin [Htwin Htp]]]. exfalso.
      assert (Hnone : In None (connectedEntries projection sel)).
      { unfold connectedEntries. apply in_or_app. right.
        apply in_flat_map. exists p. split; [exact Hin |].
        unfold entryFor.
        destruct (projection (twinCoords (sel_city sel) p)); [| contradiction].
        rewrite Htwin. left. reflexivity. }
      apply allLabels_None in Hnone. congruence.
    - split; [| reflexivity]. intros _.
      apply allLabels_None in E. unfold connectedEntries in E.
      apply in_app_or in E. destruct E as [E | E].
      + unfold entryFor in E. rewrite Hproj, Hname in E.
        destruct E as [E | []]. discriminate.
      + apply in_flat_map in E. destruct E as [p [Hin Hp]].
        exists p. split; [exact Hin |]. unfold entryFor in Hp.
        destruct (projection (twinCoords (sel_city sel) p)) as [tp |];
          [| contradiction].
        destruct Hp as [Hp | []]. unfold pushEntry in Hp.
        destruct (twinName (sel_city sel) p); [discriminate |].
        split; [reflexivity | discriminate]. }
  split; [exact Hthrows |]. split.
  - intros labels Hmemo.
    unfold selectedConnectedCitiesMemo in Hmemo.
    destruct (allLabels (connectedEntries projection sel)) as [connected |] eqn:E;
      [| discriminate].
    injection Hmemo as <-. split.
    + unfold connectedEntries, entryFor in E. rewrite Hproj, Hname in E.
      cbn [pushEntry app allLabels] in E.
      destruct (allLabels _) as [cs |]; [| discriminate].
      injection E as <-.
      unfold selectedConnectedCities. cbn [placeLoop].
      destruct (placeLoop _ 1 _ cs) as [out final]. cbn [fst].
      exists out. reflexivity.
    + unfold selectedConnectedCities.
      rewrite placeLoop_length, (allLabels_length _ _ E).
      apply connectedEntries_length.
  - intros Hnamed.
    destruct (selectedConnectedCitiesMemo projection (Some sel))
      as [labels |] eqn:E; [exists labels; reflexivity |].
    exfalso. destruct (proj1 Hthrows eq_refl) as [p [Hin [Htwin Htp]]].
    exact (Hnamed p Hin Htp Htwin).
Qed.

End LabelMemos.

Lemma selected_city_label_first_witness :
  exists rest,
    fst (selectedConnectedCities
           [pushLabel "A" "X" (10, -(10)); pushLabel "B" "Y" (20, -(20));
            pushLabel "C" "Z" (30, -(30))])
    = {| label_name := "A"; label_country := country (sel_city selectionA);
         projected := (10, -(10)); labelX := fst (10, -(10)) + 7;
         labelY := snd (10, -(10)) - 8 |} :: rest.
Proof.
  apply (proj1 (proj2 (selected_city_label_first plateCarree selectionA
                         (10, -(10)) "A" eq_refl eq_refl))
           (fst (selectedConnectedCities
                   [pushLabel "A" "X" (10, -(10)); pushLabel "B" "Y" (20, -(20));
                    pushLabel "C" "Z" (30, -(30))]))).
  reflexivity.
Defined.

(** ** Interaction controller: further properties *)

Section ControllerProperties.

Variable round : Q -> Q.
Variable filtered : list CityPair.

Lemma handleMouseMove_frame (m : Q * Q * option (Q * Q)) (s : AppState) :
  let s' := step round filtered s (moveEvent m) in
  panOrigin s' = panOrigin s /\ zoom s' = zoom s
  /\ isPanning s' = isPanning s /\ panStart s' = panStart s.
Proof.
  destruct m as [[x y] container]. unfold moveEvent. cbn [step fst snd].
  unfold handleMouseMove. destruct (negb (isPanning s)); [auto |].
  destruct (negb (isDragging s) && _); [auto |].
  destruct container as [[width height] |]; cbn; auto.
Qed.

Lemma moves_frame (moves : list (Q * Q * option (Q * Q))) (s : AppState) :
  let s' := run round filtered s (map moveEvent moves) in
  panOrigin s' = panOrigin s /\ zoom s' = zoom s
  /\ isPanning s' = isPanning s /\ panStart s' = panStart s.
Proof.
  revert s. induction moves as [| m moves IH]; intros s; [cbn; auto |].
  destruct (handleMouseMove_frame m s) as [H1 [H2 [H3 H4]]].
  destruct (IH (step round filtered s (moveEvent m))) as [I1 [I2 [I3 I4]]].
  unfold run in *. cbn [map fold_left] in *.
  rewrite I1, I2, I3, I4. auto.
Qed.

(** Moves that stay below the threshold while no drag is under way change
    nothing. *)
Lemma small_moves_identity (moves : list (Q * Q * option (Q * Q))) (s : AppState) :
  isDragging s = false ->
  existsb (reachesThreshold (panStart s)) moves = false ->
  run round filtered s (map moveEvent moves) = s.
Proof.
  revert s. induction moves as [| m moves IH]; intros s Hdrag Hsmall;
    [reflexivity |].
  cbn [existsb] in Hsmall. apply orb_false_iff in Hsmall.
  destruct Hsmall as [Hm Hrest].
  assert (Hstep : step round filtered s (moveEvent m) = s).
  { destruct m as [[x y] container]. unfold moveEvent. cbn [step fst snd].
    unfold handleMouseMove. destruct (negb (isPanning s)); [reflexivity |].
    unfold reachesThreshold, pixelDisplacement in Hm. cbn [fst snd] in Hm.
    apply negb_false_iff in Hm. rewrite Hdrag, Hm. reflexivity. }
  unfold run in *. cbn [map fold_left]. rewrite Hstep. apply IH; assumption.
Qed.

(** X19: during a drag the pan follows the pointer: once the threshold has
    been reached, the pan after a move is the pan at the press plus the
    displacement of that move from the press, scaled by 960 / width and
    500 / height of the container, whatever path the pointer took; and as
    long as every move stays below the threshold the press and the moves
    leave pan and zoom as they were. *)
Theorem drag_pan_follows_pointer :
  forall (s : AppState) (button : Z) (x0 y0 : Q)
         (moves : list (Q * Q * option (Q * Q))) (x y width height : Q),
    button = 0%Z \/ button = 1%Z ->
    (existsb (reachesThreshold (x0, y0)) (moves ++ [(x, y, Some (width, height))])
     = true ->
     pan (run round filtered s
            (MouseDown button x0 y0
               :: map moveEvent (moves ++ [(x, y, Some (width, height))])))
     = (fst (pan s) + (x - x0) * (960 / width),
        snd (pan s) + (y - y0) * (500 / height)))
    /\ (existsb (reachesThreshold (x0, y0)) moves = false ->
        pan (run round filtered s (MouseDown button x0 y0 :: map moveEvent moves))
        = pan s
        /\ zoom (run round filtered s
                   (MouseDown button x0 y0 :: map moveEvent moves))
           = zoom s).
Proof.
  intros s button x0 y0 moves x y width height Hb.
  set (s0 := {| zoom := zoom s; pan := pan s; isPanning := true;
                isDragging := false; panStart := (x0, y0);
                panOrigin := pan s; selectedCity := selectedCity s;
                citiesArray := citiesArray s;
                selectedArray := selectedArray s |}).
  assert (Hdown : handleMouseDown button x0 y0 s = s0).
  { unfold handleMouseDown. destruct Hb as [-> | ->]; reflexivity. }
  split.
  - intros Hreach. unfold run. cbn [fold_left step]. rewrite Hdown.
    rewrite map_app, fold_left_app. cbn [map fold_left].
    fold (run round filtered s0 (map moveEvent moves)).
    destruct (moves_panning round filtered moves s0 eq_refl)
      as [Hpan [Hstart [_ Hdrag]]].
    destruct (moves_frame moves s0) as [Horigin _].
    set (s1 := run round filtered s0 (map moveEvent moves)) in *.
    unfold moveEvent. cbn [step fst snd]. unfold handleMouseMove.
    rewrite Hpan. cbn [negb].
    rewrite existsb_app in Hreach. cbn [existsb] in Hreach.
    rewrite orb_false_r in Hreach.
    assert (Hgo : negb (isDragging s1)
                  && Qltb (Qabs (x - fst (panStart s1))
                           + Qabs (y - snd (panStart s1))) 3 = false).
    { rewrite Hdrag, Hstart. cbn [isDragging panStart s0 fst snd orb].
      unfold reachesThreshold, pixelDisplacement in Hreach.
      cbn [fst snd] in Hreach.
      destruct (existsb _ moves); [reflexivity |].
      cbn [orb negb andb] in *. apply negb_true_iff in Hreach. exact Hreach. }
    rewrite Hgo. cbn [pan withPan]. rewrite Horigin, Hstart. reflexivity.
  - intros Hsmall. unfold run. cbn [fold_left step]. rewrite Hdown.
    fold (run round filtered s0 (map moveEvent moves)).
    rewrite (small_moves_identity moves s0 eq_refl Hsmall). auto.
Qed.

(** X20: pointer moves pan the map only between a press with the primary or
    middle button and the release: after a press with any other button, and
    after a release, pointer moves leave the whole state as it is. *)
Theorem moves_without_press_do_nothing :
  forall (s : AppState) (moves : list (Q * Q * option (Q * Q))),
    (forall (button : Z) (x0 y0 : Q),
        isPanning s = false ->
        button <> 0%Z -> button <> 1%Z ->
        run round filtered s (MouseDown button x0 y0 :: map moveEvent moves) = s)
    /\ run round filtered s (MouseUp :: map moveEvent moves)
       = handleMouseUp s
    /\ run round filtered s (MouseLeave :: map moveEvent moves)
       = handleMouseUp s.
Proof.
  intros s moves.
  assert (Hidle : forall t, isPanning t = false ->
                            run round filtered t (map moveEvent moves) = t).
  { clear s. induction moves as [| m moves IH]; intros t Ht; [reflexivity |].
    assert (Hstep : step round filtered t (moveEvent m) = t).
    { destruct m as [[x y] container]. unfold moveEvent. cbn [step fst snd].
      unfold handleMouseMove. rewrite Ht. reflexivity. }
    unfold run in *. cbn [map fold_left]. rewrite Hstep. apply IH, Ht. }
  split; [| split].
  - intros button x0 y0 Hidle_s H0 H1. unfold run. cbn [fold_left step].
    unfold handleMouseDown.
    destruct (Z.eqb_spec button 0); [contradiction |].
    destruct (Z.eqb_spec button 1); [contradiction |].
    cbn [orb]. apply Hidle, Hidle_s.
  - unfold run. cbn [fold_left step]. apply Hidle. reflexivity.
  - unfold run. cbn [fold_left step]. apply Hidle. reflexivity.
Qed.

(** X21: a click that reaches the map background after a press with the
    primary or middle button, pointer moves and the release clears the
    selection when every move stayed below 3 screen pixels, and leaves the
    selection as it was when some move reached 3 screen pixels. *)
Theorem background_click_after_drag :
  forall (s : AppState) (button : Z) (x0 y0 : Q)
         (moves : list (Q * Q * option (Q * Q))),
    button = 0%Z \/ button = 1%Z ->
    let s' := run round filtered s (mapClickGesture button x0 y0 moves) in
    (existsb (reachesThreshold (x0, y0)) moves = true ->
     selectedCity s' = selectedCity s)
    /\ (existsb (reachesThreshold (x0, y0)) moves = false ->
        selectedCity s' = None).
Proof.
  intros s button x0 y0 moves Hb. cbv zeta.
  pose proof (gesture_before_click round filtered button x0 y0 moves s Hb)
    as Hbefore.
  cbv zeta in Hbefore. destruct Hbefore as [Hsel Hdrag].
  unfold mapClickGesture.
  replace (MouseDown button x0 y0 :: map moveEvent moves ++ [MouseUp; MapClick])
    with ((MouseDown button x0 y0 :: map moveEvent moves ++ [MouseUp])
            ++ [MapClick])
    by (simpl; rewrite <- app_assoc; reflexivity).
  unfold run in *. rewrite fold_left_app.
  set (s1 := fold_left (step round filtered)
               (MouseDown button x0 y0 :: map moveEvent moves ++ [MouseUp]) s) in *.
  cbn [fold_left step]. unfold handleMapClick. rewrite Hdrag, Hsel.
  split; intros ->.
  - exact Hsel.
  - destruct (selectedCity s); [reflexivity | exact Hsel].
Qed.

(** X22: the suppression of clicks after a drag ends with the deferred
    reset: once it has run, a click on a marker toggles the selection (it
    clears a selection that holds the node object of the marker, and selects
    the city of the marker otherwise), and a click on the background clears
    the selection, whatever gesture came before. *)
Theorem click_works_after_reset :
  forall (s : AppState) (before : list Event) (city : CityNode),
    selectedCity
      (run round filtered s (before ++ [DragResetTimeout; CityClick city]))
    = toggled filtered city (run round filtered s before)
    /\ selectedCity
         (run round filtered s (before ++ [DragResetTimeout; MapClick]))
       = None.
Proof.
  intros s before city. unfold run. rewrite !fold_left_app.
  set (s1 := fold_left (step round filtered) before s).
  cbn [fold_left step].
  unfold handleCityClick, handleMapClick, toggled, dragResetTimeout,
    withIsDragging, clickedIsSelected, sameObject, sameNode.
  cbn [isDragging selectedCity citiesArray selectedArray].
  split.
  - destruct (selectedCity s1) as [cur |]; [| reflexivity].
    destruct (Nat.eqb (selectedArray s1) (citiesArray s1)
              && (Qeq_bool (fst (coords (sel_city cur))) (fst (coords city))
                  && Qeq_bool (snd (coords (sel_city cur))) (snd (coords city))));
      reflexivity.
  - destruct (selectedCity s1) eqn:E; cbn; reflexivity.
Qed.

End ControllerProperties.

Lemma drag_pan_follows_pointer_witness :
  pan (run exact examplePairs initialState
         (MouseDown 0 100 100
            :: map moveEvent ([(101, 100, None)] ++ [(150, 80, Some (1920, 1000))])))
  = (fst (pan initialState) + (150 - 100) * (960 / 1920),
     snd (pan initialState) + (80 - 100) * (500 / 1000)).
Proof.
  apply (drag_pan_follows_pointer exact examplePairs initialState 0%Z 100 100
           [(101, 100, None)] 150 80 1920 1000).
  - left. reflexivity.
  - vm_compute. reflexivity.
Defined.

Lemma moves_without_press_do_nothing_witness :
  run exact examplePairs initialState
    (MouseDown 2 100 100 :: map moveEvent [(150, 80, Some (960, 500))])
  = initialState.
Proof.
  apply (proj1 (moves_without_press_do_nothing exact examplePairs initialState
                  [(150, 80, Some (960, 500))])).
  - reflexivity.
  - discriminate.
  - discriminate.
Defined.

Lemma background_click_after_drag_witness :
  selectedCity
    (run exact examplePairs
       (withSelectedCity initialState (Some selectionA))
       (mapClickGesture 0 100 100 [(150, 80, Some (960, 500))]))
  = Some selectionA.
Proof.
  apply (background_click_after_drag exact examplePairs
           (withSelectedCity initialState (Some selectionA)) 0%Z 100 100
           [(150, 80, Some (960, 500))]).
  - left. reflexivity.
  - vm_compute. reflexivity.
Defined.

Lemma Math_max_left (a b : Q) : a <= Math_max a b.
Proof.
  unfold Math_max. destruct (Qle_bool a b) eqn:E.
  - apply Qle_bool_iff, E.
  - apply Qle_refl.
Qed.

(** X23: with exact arithmetic and the zoom in [0.5, 20], the zoom-in
    button and a wheel turn upwards never lower the zoom, the zoom-out
    button and a wheel turn downwards never raise it, and at the bounds the
    buttons change nothing: zoom-in at 20 stays at 20 and zoom-out at 0.5
    stays at 0.5. *)
Theorem zoom_directions :
  forall s : AppState,
    zoomInRange (zoom s) ->
    zoom s <= zoom (zoomIn exact s)
    /\ zoom (zoomOut exact s) <= zoom s
    /\ (forall deltaY, 0 < deltaY -> zoom (handleWheel exact deltaY s) <= zoom s)
    /\ (forall deltaY, deltaY <= 0 -> zoom s <= zoom (handleWheel exact deltaY s))
    /\ (zoom s == 20 -> zoom (zoomIn exact s) == 20)
    /\ (zoom s == 1 # 2 -> zoom (zoomOut exact s) == 1 # 2).
Proof.
  intros s [Hlo Hhi].
  assert (Hin : zoom s <= zoom (zoomIn exact s)).
  { unfold zoomIn, exact. cbn [zoom withZoom]. apply Math_min_lower; lra. }
  assert (Hout : zoom (zoomOut exact s) <= zoom s).
  { unfold zoomOut, exact. cbn [zoom withZoom]. apply Math_max_upper; lra. }
  split; [exact Hin |]. split; [exact Hout |]. split; [| split; [| split]].
  - intros deltaY Hd. unfold handleWheel, exact. cbn [zoom withZoom].
    replace (Qgtb deltaY 0) with true
      by (symmetry; apply Qltb_lt; exact Hd).
    eapply Qle_trans; [apply Math_min_left |].
    apply Math_max_upper; lra.
  - intros deltaY Hd. unfold handleWheel, exact. cbn [zoom withZoom].
    replace (Qgtb deltaY 0) with false
      by (symmetry; apply Qgtb_false_le; exact Hd).
    apply Math_min_lower; [| exact Hhi].
    eapply Qle_trans; [| apply Math_max_left]. lra.
  - intros H20. apply Qle_antisym.
    + unfold zoomIn. cbn [zoom withZoom]. apply Math_min_upper.
    + apply Qle_trans with (zoom s); [rewrite H20; apply Qle_refl | exact Hin].
  - intros Hhalf. apply Qle_antisym.
    + apply Qle_trans with (zoom s); [exact Hout | rewrite Hhalf; apply Qle_refl].
    + unfold zoomOut. cbn [zoom withZoom]. apply Math_max_lower.
Qed.

Lemma zoom_directions_witness :
  zoomInRange (zoom initialState)
  /\ zoom initialState <= zoom (zoomIn exact initialState).
Proof.
  assert (H : zoomInRange (zoom initialState)) by (split; discriminate).
  split; [exact H |].
  exact (proj1 (zoom_directions initialState H)).
Defined.

(** ** Search box, debounce timer and hover *)

Section UiProperties.

Variable toLowerCase : string -> string.
Variable round : Q -> Q.
Variable pairs : list CityPair.

Lemma timerConsistent_step (u : UiState) (e : UiEvent) :
  timerConsistent u -> timerConsistent (uiStep toLowerCase round pairs u e).
Proof.
  unfold timerConsistent. intros H.
  assert (Hchange : forall value,
             match pendingTimer (searchChange value u) with
             | Some term => term = searchTerm (searchChange value u)
             | None => debouncedSearch (searchChange value u)
                       = searchTerm (searchChange value u)
             end).
  { intros value. unfold searchChange. cbn.
    destruct (String.eqb_spec value (searchTerm u)) as [-> | _];
      [exact H | reflexivity]. }
  destruct e; cbn [uiStep]; try exact H; try apply Hchange.
  unfold debounceTimeout. destruct (pendingTimer u) as [term |] eqn:E.
  - cbn. exact H.
  - rewrite E. exact H.
Qed.

Lemma timerConsistent_run (events : list UiEvent) (u : UiState) :
  timerConsistent u -> timerConsistent (uiRun toLowerCase round pairs u events).
Proof.
  revert u. induction events as [| e events IH]; intros u H; [exact H |].
  unfold uiRun in *. cbn [fold_left]. apply IH, timerConsistent_step, H.
Qed.

Lemma last_cons {A : Type} (l : list A) (v d : A) :
  last (v :: l) d = last l v.
Proof.
  revert v d. induction l as [| a l IH]; intros v d; [reflexivity |].
  change (last (v :: a :: l) d) with (last (a :: l) d).
  rewrite (IH a d), (IH a v). reflexivity.
Qed.

Lemma typing_run (values : list string) (u : UiState) :
  let u' := uiRun toLowerCase round pairs u (map SearchChange values) in
  debouncedSearch u' = debouncedSearch u
  /\ searchTerm u' = last values (searchTerm u).
Proof.
  revert u. induction values as [| v values IH]; intros u; [cbn; auto |].
  destruct (IH (searchChange v u)) as [H1 H2].
  unfold uiRun in *. cbn [map fold_left uiStep]. rewrite H1, H2.
  split; [reflexivity |]. rewrite last_cons. reflexivity.
Qed.

(** X24: in every state reached from the first render, a pending debounce
    timer holds the term in the search box, and with no timer pending the
    committed term is the term in the search box.  Keystrokes never change
    the committed term; after a burst of keystrokes the timer commits the
    last term typed and none of the earlier ones. *)
Theorem debounce_commits_last_term :
  forall (events : list UiEvent) (values : list string),
    let u := uiRun toLowerCase round pairs initialUi events in
    timerConsistent u
    /\ debouncedSearch (uiRun toLowerCase round pairs u (map SearchChange values))
       = debouncedSearch u
    /\ debouncedSearch
         (uiRun toLowerCase round pairs u
            (map SearchChange values ++ [DebounceTimeout]))
       = last values (searchTerm u)
    /\ pendingTimer
         (uiRun toLowerCase round pairs u
            (map SearchChange values ++ [DebounceTimeout]))
       = None.
Proof.
  intros events values u.
  assert (Hu : timerConsistent u).
  { apply timerConsistent_run. reflexivity. }
  destruct (typing_run values u) as [Hdeb Hterm]. cbv zeta in Hdeb, Hterm.
  pose proof (timerConsistent_run (map SearchChange values) u Hu) as Hcons.
  split; [exact Hu |]. split; [exact Hdeb |].
  unfold uiRun in *. rewrite fold_left_app.
  set (u1 := fold_left (uiStep toLowerCase round pairs)
               (map SearchChange values) u) in *.
  cbn [fold_left uiStep]. unfold debounceTimeout, timerConsistent in *.
  destruct (pendingTimer u1) as [term |] eqn:E.
  - cbn. split; [congruence | reflexivity].
  - split; [congruence | exact E].
Qed.

Lemma step_selection (filtered : list CityPair) (s : AppState) (e : Event)
    (sel : Selection) :
  selectedCity (step round filtered s e) = Some sel ->
  selectedCity s = Some sel
  \/ sel_pairs sel = findPairsForCity filtered (sel_city sel).
Proof.
  destruct e; cbn [step]; try (intros H; left; exact H).
  - intros H. left. rewrite <- H. unfold handleMouseDown.
    destruct (_ || _); reflexivity.
  - intros H. left. rewrite <- H. unfold handleMouseMove.
    destruct (negb (isPanning s)); [reflexivity |].
    destruct (negb (isDragging s) && _); [reflexivity |].
    destruct container as [[width height] |]; reflexivity.
  - unfold handleCityClick. destruct (isDragging s); [auto |].
    destruct (clickedIsSelected s city); cbn; [discriminate |].
    intros H. injection H as <-. right. reflexivity.
  - unfold handleMapClick. destruct (isDragging s); [auto |].
    destruct (selectedCity s) eqn:E; cbn; [discriminate |].
    rewrite E. discriminate.
Qed.

Lemma provenance_step (u : UiState) (e : UiEvent) :
  provenance toLowerCase pairs u -> provenance toLowerCase pairs (uiStep toLowerCase round pairs u e).
Proof.
  intros [Hsel Hhov]. destruct e; cbn [uiStep]; split; cbn;
    try exact Hsel; try exact Hhov; try discriminate.
  - intros sel H. apply step_selection in H. destruct H as [H | H].
    + apply Hsel, H.
    + exists (debouncedSearch u). exact H.
  - unfold debounceTimeout. destruct (pendingTimer u) as [term |]; [| exact Hsel].
    cbn [ctrl]. destruct (String.eqb term (debouncedSearch u)); exact Hsel.
  - unfold debounceTimeout. destruct (pendingTimer u); exact Hhov.
  - intros hov H. injection H as <-. exists (debouncedSearch u). reflexivity.
Qed.

(** X25: in every state reached from the first render, the pairs held by
    the selection, and those held by the hover, are loaded pairs that have
    the selected (hovered) city at one end: they were found for that city
    under some committed search term, though not always the current one.  A
    change of the search box always clears the selection. *)
Theorem selection_pairs_touch_city :
  forall events : list UiEvent,
    let u := uiRun toLowerCase round pairs initialUi events in
    (forall sel, selectedCity (ctrl u) = Some sel ->
       foundUnderSomeTerm toLowerCase pairs (sel_city sel) (sel_pairs sel)
       /\ forall p, In p (sel_pairs sel) ->
            In p pairs /\ touchesCity (sel_city sel) p = true)
    /\ (forall hov, hoveredCity u = Some hov ->
          foundUnderSomeTerm toLowerCase pairs (hov_city hov) (hov_pairs hov)
          /\ forall p, In p (hov_pairs hov) ->
               In p pairs /\ touchesCity (hov_city hov) p = true)
    /\ (forall value,
          selectedCity (ctrl (uiStep toLowerCase round pairs u (SearchChange value)))
          = None).
Proof.
  intros events u.
  assert (Hprov : provenance toLowerCase pairs u).
  { subst u. unfold uiRun.
    assert (H0 : provenance toLowerCase pairs initialUi) by (split; intros x H; discriminate).
    revert H0. generalize initialUi.
    induction events as [| e events IH]; intros u0 H0; [exact H0 |].
    cbn [fold_left]. apply IH, provenance_step, H0. }
  assert (Hfound : forall city found,
             foundUnderSomeTerm toLowerCase pairs city found ->
             forall p, In p found -> In p pairs /\ touchesCity city p = true).
  { intros city found [term ->] p Hp. unfold findPairsForCity in Hp.
    apply filter_In in Hp. destruct Hp as [Hin Htouch].
    split; [| exact Htouch].
    unfold filteredPairs in Hin.
    destruct (String.eqb term EmptyString); [exact Hin |].
    apply filter_In in Hin. apply Hin. }
  destruct Hprov as [Hsel Hhov]. split; [| split].
  - intros sel H. split; [apply Hsel, H | apply Hfound, Hsel, H].
  - intros hov H. split; [apply Hhov, H | apply Hfound, Hhov, H].
  - intros value. reflexivity.
Qed.

End UiProperties.

(** ** Search labels *)

Section SearchLabelProperties.

Variable projection : Q * Q -> option (Q * Q).

(** X26: with a search term and no selection, the search memo labels the
    built nodes that have a projection, one label each, in the order of the
    node list, under the name and country of the node and at its projected
    point; it throws exactly when some node that has a projection has no
    name. *)
Theorem search_labels_follow_nodes :
  forall nodes : list CityNode,
    (forall labels,
        searchLabelsMemo projection true nodes false = Some labels ->
        map (fun c => (Some (label_name c), label_country c, Some (projected c)))
            labels
        = map (fun n => (name n, country n, projection (coords n)))
              (filter (fun n => match projection (coords n) with
                                | Some _ => true
                                | None => false
                                end) nodes))
    /\ (searchLabelsMemo projection true nodes false = None
        <-> exists n, In n nodes /\ name n = None
                      /\ projection (coords n) <> None).
Proof.
  intros nodes. unfold searchLabelsMemo. cbn [negb orb]. split.
  - intros labels H.
    destruct (allLabels (searchEntries projection nodes)) as [ls |] eqn:E;
      [| discriminate].
    injection H as <-. apply allLabels_Some in E.
    unfold searchLabels.
    assert (Hfields :
              map (fun c => (Some (label_name c), label_country c,
                             Some (projected c)))
                  (fst (placeLoop (fun _ => None) 0 [] ls))
              = map (fun c => (Some (label_name c), label_country c,
                               Some (projected c))) ls).
    { pose proof (placeLoop_fields (fun _ => None) ls 0 []) as Hf.
      apply (f_equal (map (fun t : string * string * (Q * Q) =>
                             (Some (fst (fst t)), snd (fst t), Some (snd t)))))
        in Hf.
      rewrite !map_map in Hf. exact Hf. }
    rewrite Hfields. clear Hfields. revert ls E.
    unfold searchEntries, entryFor.
    induction nodes as [| n nodes IH]; intros ls E.
    + destruct ls; [reflexivity | discriminate].
    + cbn [flat_map filter] in *.
      destruct (projection (coords n)) as [pr |] eqn:Hp.
      * destruct ls as [| c ls]; [discriminate |].
        cbn [app map] in E. injection E as Hc E.
        cbn [map]. rewrite (IH ls E), Hp. f_equal.
        unfold pushEntry in Hc. destruct (name n); [| discriminate].
        injection Hc as <-. reflexivity.
      * apply IH, E.
  - destruct (allLabels (searchEntries projection nodes)) as [ls |] eqn:E.
    + split; [discriminate |].
      intros [n [Hin [Hname Hproj]]]. exfalso.
      assert (Hnone : In None (searchEntries projection nodes)).
      { unfold searchEntries. apply in_flat_map. exists n. split; [exact Hin |].
        unfold entryFor. destruct (projection (coords n)); [| contradiction].
        rewrite Hname. left. reflexivity. }
      apply allLabels_None in Hnone. congruence.
    + split; [| reflexivity]. intros _.
      apply allLabels_None in E. unfold searchEntries in E.
      apply in_flat_map in E. destruct E as [n [Hin Hn]].
      exists n. split; [exact Hin |]. unfold entryFor in Hn.
      destruct (projection (coords n)) as [pr |]; [| contradiction].
      destruct Hn as [Hn | []]. unfold pushEntry in Hn.
      destruct (name n); [discriminate |]. split; [reflexivity | discriminate].
Qed.

End SearchLabelProperties.

Lemma search_labels_follow_nodes_witness :
  map (fun c => (Some (label_name c), label_country c, Some (projected c)))
      (fst (searchLabels
              [pushLabel "A" "X" (10, -(10)); pushLabel "B" "Y" (20, -(20));
               pushLabel "C" "Z" (30, -(30))]))
  = map (fun n => (name n, country n, plateCarree (coords n)))
        (filter (fun n => match plateCarree (coords n) with
                          | Some _ => true
                          | None => false
                          end) (cities [pairAB; pairAC])).
Proof.
  apply (proj1 (search_labels_follow_nodes plateCarree (cities [pairAB; pairAC]))).
  reflexivity.
Defined.

(** ** Witnesses on concrete inputs *)

Lemma tooltip_accounts_for_all_pairs_witness :
  tooltipMore (repeat pairAB 9) = Some 1%nat /\ (1 <= 1)%nat.
Proof.
  split; [reflexivity |].
  apply (proj2 (proj2 (proj2 (tooltip_accounts_for_all_pairs nodeA
                                (repeat pairAB 9)))) 1%nat).
  reflexivity.
Defined.

Lemma default_markers_have_three_connections_witness :
  In nodeA (visibleMarkers false (cities examplePairs))
  /\ (2 <= List.length (findPairsForCity examplePairs nodeA))%nat.
Proof.
  assert (Hin : In nodeA (visibleMarkers false (cities examplePairs))).
  { left. reflexivity. }
  split; [exact Hin |].
  exact (proj1 (proj2 (default_markers_have_three_connections
                         examplePairs nodeA)) Hin).
Defined.

Lemma marker_radius_bounds_witness :
  markerRadius false false true false 40 <= 15 # 10.
Proof.
  apply (marker_radius_bounds false false true false 40 40); reflexivity.
Defined.

Lemma linesPath_composition_witness :
  projects clippedProjection pairPole = false
  /\ linesPath clippedProjection showInteger (pairPole :: [pairAB])
     = linesPath clippedProjection showInteger [pairAB].
Proof.
  assert (H : projects clippedProjection pairPole = false) by reflexivity.
  split; [exact H |].
  exact (proj1 (proj2 (linesPath_composition clippedProjection showInteger
                         [] [pairAB])) pairPole H).
Defined.

Example linesPath_example :
  linesPath clippedProjection showInteger [pairAB; pairPole; pairAC]
  = "M10,-10L20,-20M10,-10L30,-30"%string.
Proof. reflexivity. Qed.

Lemma label_modes_exclusive_witness :
  searchLabelsMemo plateCarree true (cities [pairAB; pairAC]) true = Some [].
Proof.
  apply (proj1 (label_modes_exclusive plateCarree (Some selectionA) true
                  (cities [pairAB; pairAC]))).
  reflexivity.
Defined.

Lemma selection_pairs_touch_city_witness :
  selectedCity
    (ctrl (uiRun asciiToLowerCase exact examplePairs initialUi
             [Controller (CityClick nodeA)]))
  = Some {| sel_city := nodeA;
            sel_pairs := findPairsForCity examplePairs nodeA |}
  /\ (forall p, In p (findPairsForCity examplePairs nodeA) ->
        In p examplePairs /\ touchesCity nodeA p = true).
Proof.
  assert (H : selectedCity
                (ctrl (uiRun asciiToLowerCase exact examplePairs initialUi
                         [Controller (CityClick nodeA)]))
              = Some {| sel_city := nodeA;
                        sel_pairs := findPairsForCity examplePairs nodeA |}).
  { reflexivity. }
  split; [exact H |].
  exact (proj2 (proj1 (selection_pairs_touch_city asciiToLowerCase exact
                         examplePairs [Controller (CityClick nodeA)]) _ H)).
Defined.

(** ** A selection that outlives its node list *)

(** A click on the marker of city A while the debounce timer of the term
    "b" is pending selects the node of the unfiltered list.  When the timer
    commits the term the node list is rebuilt: the marker of city A now
    carries another object, so a click on it selects the city again, with
    the pairs of the filtered set, where a second click on the same marker
    before the commit clears the selection. *)
Example stale_selection_is_reselected :
  let clicked := uiRun asciiToLowerCase exact examplePairs initialUi
                   [SearchChange "b"; Controller (CityClick nodeA)] in
  let committed := uiStep asciiToLowerCase exact examplePairs clicked
                     DebounceTimeout in
  selectedCity (ctrl clicked)
  = Some {| sel_city := nodeA; sel_pairs := [pairAB; pairAA; pairAC] |}
  /\ selectedCity
       (ctrl (uiStep asciiToLowerCase exact examplePairs clicked
                (Controller (CityClick nodeA))))
     = None
  /\ In nodeA_searchB (cities (currentFiltered asciiToLowerCase examplePairs committed))
  /\ selectedCity (ctrl committed) = selectedCity (ctrl clicked)
  /\ selectedCity
       (ctrl (uiStep asciiToLowerCase exact examplePairs committed
                (Controller (CityClick nodeA_searchB))))
     = Some {| sel_city := nodeA_searchB; sel_pairs := [pairAB] |}.
Proof.
  cbv zeta. repeat split; try reflexivity.
  left. reflexivity.
Qed.
